(** * mylib: the ioctl request codec and the evdev device bindings

    A shallow embedding of [linux/ioctl] and [linux/input] of
    andrieee44/mylib.  Go's [uint] and [uintptr] are 64-bit words on the
    Linux targets the package is built for; they are integers in [Z] with
    the wrap-around modulo [2^64] written out at every operation that may
    overflow.  A byte is a [Byte.byte], a byte slice a [list byte]. *)

From Stdlib Require Import ZArith Lia List Bool Strings.Byte String HexString.
From stdpp Require Import base decidable option list gmap strings.
From stdpp Require Import sorting.

Local Open Scope Z_scope.

(** ** Machine words *)

Definition uint_bits : Z := 64.

(** The value of a result of type [uint]. *)
Definition uint (z : Z) : Z := z mod 2 ^ uint_bits.

(** The value of a result of type [byte] (Go's [uint8]). *)
Definition uint8 (z : Z) : Z := z mod 2 ^ 8.

Definition byte_val (b : byte) : Z := Z.of_N (Byte.to_N b).

(** ** The operating system seen from the package

    The package talks to the kernel through [os.OpenFile], [filepath.Glob]
    and the [ioctl] system call.  The kernel is an arbitrary deterministic
    function of the calls made so far; a run of the program threads the log
    of those calls.  [None] is a run-time panic. *)

Inductive error : Type :=
| Errno (e : Z)                                  (* syscall.Errno *)
| PathError (op path : string) (err : error)     (* *fs.PathError *)
| errorString (s : string)                       (* errors.New *)
| ErrNotExist                                    (* fs.ErrNotExist *)
| ErrPermission                                  (* fs.ErrPermission *)
| ErrBadPattern                                  (* filepath.ErrBadPattern *)
| Errorf (format : string) (err : error) (args : list Z).
                                                 (* fmt.Errorf, one %w verb *)

Definition ENOENT : Z := 2.
Definition EPERM : Z := 1.
Definition EACCES : Z := 13.

(** [errors.Is] for the targets the package is used with, error numbers
    and sentinels: walks the chain of wrapped errors; a [syscall.Errno]
    answers for the sentinels of package [fs] through its [Is] method.
    Go compares a value made by [errors.New] or [fmt.Errorf] by identity:
    here an [errors.New] value is known by its text (the package makes one
    such value), and a wrapper is never matched as a target itself. *)
Fixpoint errors_Is (err target : error) : bool :=
  match err with
  | Errno e =>
      match target with
      | Errno e' => e =? e'
      | ErrNotExist => e =? ENOENT
      | ErrPermission => (e =? EACCES) || (e =? EPERM)
      | _ => false
      end
  | PathError _ _ inner => errors_Is inner target
  | Errorf _ inner _ => errors_Is inner target
  | errorString s =>
      match target with errorString s' => String.eqb s s' | _ => false end
  | ErrNotExist => match target with ErrNotExist => true | _ => false end
  | ErrPermission => match target with ErrPermission => true | _ => false end
  | ErrBadPattern => match target with ErrBadPattern => true | _ => false end
  end.

(** An open [*os.File]: its descriptor. *)
Record File : Type := { Fd : Z }.

Inductive open_result : Type := OpenErr (e : error) | Opened (f : File).
Inductive glob_result : Type := GlobErr (e : error) | GlobOk (matches : list string).

Inductive event : Type :=
| EvGlob (pattern : string)
| EvOpen (name : string) (flag perm : Z)
| EvIoctl (fd req : Z) (len : nat).

(** What the system answers, given the calls made before.  [sys_ioctl]
    returns the error number and the bytes the kernel copies to the
    argument. *)
Record OS : Type := {
  Clean : string -> string;
  sys_glob : list event -> string -> glob_result;
  sys_open : list event -> string -> Z -> Z -> open_result;
  sys_ioctl : list event -> Z -> Z -> list byte -> Z * list byte
}.

Definition M (A : Type) : Type := list event -> option (A * list event).

Definition ret {A} (a : A) : M A := fun h => Some (a, h).

Definition bind {A B} (m : M A) (k : A -> M B) : M B :=
  fun h => match m h with
           | Some (a, h') => k a h'
           | None => None
           end.

Definition panic {A} : M A := fun _ => None.

Definition lift {A} (o : option A) : M A :=
  fun h => match o with Some a => Some (a, h) | None => None end.

Notation "'do' x <- m ;; k" := (bind m (fun x => k))
  (at level 10, x name, m at level 99, k at level 200).
Notation "'do' ' p <- m ;; k" := (bind m (fun x => match x with p => k end))
  (at level 10, p pattern, m at level 99, k at level 200).

Definition O_RDWR : Z := 2.

Definition OpenFile (os : OS) (name : string) (flag perm : Z) : M open_result :=
  fun h => Some (sys_open os h name flag perm, h ++ [EvOpen name flag perm]).

Definition Glob (os : OS) (pattern : string) : M glob_result :=
  fun h => Some (sys_glob os h pattern, h ++ [EvGlob pattern]).

(** [make([]byte, n)] *)
Definition make (n : Z) : list byte := replicate (Z.to_nat n) x00.

Definition len {A} (l : list A) : Z := Z.of_nat (length l).

(** The kernel's copy into the memory an ioctl argument points to: it
    stays inside the object, whose size the request code carries. *)
Definition copy_to_user (mem data : list byte) : list byte :=
  take (length mem) data ++ drop (length data) mem.

(** [&buf[0]]: the index is checked, then the pointer reaches the slice's
    array. *)
Definition addr_index0 (buf : list byte) : M (list byte) :=
  match buf with
  | [] => panic
  | _ :: _ => ret buf
  end.

(** [unix.ByteSliceToString]: the bytes before the first NUL, all of them
    when there is none.  A Go string is the list of its bytes. *)
Fixpoint ByteSliceToString (s : list byte) : list byte :=
  match s with
  | [] => []
  | b :: rest => if Byte.eqb b x00 then [] else b :: ByteSliceToString rest
  end.

(** ** Package ioctl: the request codec (inputDevice.go, lines 103-305)
       and the system call (lib.go) *)

Module ioctl.

Definition IOC_NRBITS : Z := 8.
Definition IOC_TYPEBITS : Z := 8.
Definition IOC_SIZEBITS : Z := 14.
Definition IOC_DIRBITS : Z := 2.

Definition IOC_NRMASK : Z := Z.shiftl 1 IOC_NRBITS - 1.
Definition IOC_TYPEMASK : Z := Z.shiftl 1 IOC_TYPEBITS - 1.
Definition IOC_SIZEMASK : Z := Z.shiftl 1 IOC_SIZEBITS - 1.
Definition IOC_DIRMASK : Z := Z.shiftl 1 IOC_DIRBITS - 1.

Definition IOC_NRSHIFT : Z := 0.
Definition IOC_TYPESHIFT : Z := IOC_NRSHIFT + IOC_NRBITS.
Definition IOC_SIZESHIFT : Z := IOC_TYPESHIFT + IOC_TYPEBITS.
Definition IOC_DIRSHIFT : Z := IOC_SIZESHIFT + IOC_SIZEBITS.

Definition IOC_NONE : Z := 0.
Definition IOC_WRITE : Z := 1.
Definition IOC_READ : Z := 2.

(** [dir<<IOC_DIRSHIFT | typ<<IOC_TYPESHIFT | nr<<IOC_NRSHIFT |
    size<<IOC_SIZESHIFT]; every shift is a [uint] shift and drops the
    bits that leave the word. *)
Definition IOC (dir typ nr size : Z) : Z :=
  Z.lor (Z.lor (Z.lor (uint (Z.shiftl dir IOC_DIRSHIFT))
                      (uint (Z.shiftl typ IOC_TYPESHIFT)))
               (uint (Z.shiftl nr IOC_NRSHIFT)))
        (uint (Z.shiftl size IOC_SIZESHIFT)).

Definition IO (typ nr : Z) : Z := IOC IOC_NONE typ nr 0.

(** [IOC_TYPECHECK] is [unsafe.Sizeof] of the argument's type; the
    embedding passes that size where the source passes a zero value. *)
Definition IOC_TYPECHECK (sizeof_typ : Z) : Z := uint sizeof_typ.

Definition IOR (typ nr sizeof_argtype : Z) : Z :=
  IOC IOC_READ typ nr (IOC_TYPECHECK sizeof_argtype).

Definition IOW (typ nr sizeof_argtype : Z) : Z :=
  IOC IOC_WRITE typ nr (IOC_TYPECHECK sizeof_argtype).

Definition IOWR (typ nr sizeof_argtype : Z) : Z :=
  IOC (Z.lor IOC_READ IOC_WRITE) typ nr (IOC_TYPECHECK sizeof_argtype).

(** [nr >> IOC_DIRSHIFT & IOC_DIRMASK]: in Go [>>] and [&] have the same
    precedence and associate to the left. *)
Definition IOC_DIR (nr : Z) : Z := Z.land (Z.shiftr nr IOC_DIRSHIFT) IOC_DIRMASK.
Definition IOC_TYPE (nr : Z) : Z := Z.land (Z.shiftr nr IOC_TYPESHIFT) IOC_TYPEMASK.
Definition IOC_NR (nr : Z) : Z := Z.land (Z.shiftr nr IOC_NRSHIFT) IOC_NRMASK.
Definition IOC_SIZE (nr : Z) : Z := Z.land (Z.shiftr nr IOC_SIZESHIFT) IOC_SIZEMASK.

(** The direction flags and the size mask in place (lines 277-305). *)
Definition IOC_IN : Z := uint (Z.shiftl IOC_WRITE IOC_DIRSHIFT).
Definition IOC_OUT : Z := uint (Z.shiftl IOC_READ IOC_DIRSHIFT).
Definition IOC_INOUT : Z :=
  uint (Z.lor (Z.shiftl IOC_WRITE IOC_DIRSHIFT) (Z.shiftl IOC_READ IOC_DIRSHIFT)).
Definition IOCSIZE_MASK : Z := uint (Z.shiftl IOC_SIZEMASK IOC_SIZESHIFT).
Definition IOSIZE_SHIFT : Z := uint IOC_SIZESHIFT.

(** lib.go, [ioctl.Any]: the object behind [arg] is passed as its bytes
    and returned as the kernel left it. *)
Definition Any (os : OS) (fd req : Z) (arg : list byte)
  : M (list byte * option error) :=
  fun h =>
    let '(errno, data) := sys_ioctl os h fd (uint req) arg in
    Some ((copy_to_user arg data,
           if decide (errno <> 0) then Some (Errno errno) else None),
          h ++ [EvIoctl fd (uint req) (length arg)]).

End ioctl.

(** ** Package input: constants (doc.go and the ioctl table) *)

Module input.

Definition EV_SYN : Z := 0x00.
Definition EV_KEY : Z := 0x01.
Definition EV_REL : Z := 0x02.
Definition EV_ABS : Z := 0x03.
Definition EV_MSC : Z := 0x04.
Definition EV_SW : Z := 0x05.
Definition EV_LED : Z := 0x11.
Definition EV_SND : Z := 0x12.
Definition EV_REP : Z := 0x14.
Definition EV_FF : Z := 0x15.
Definition EV_PWR : Z := 0x16.
Definition EV_FF_STATUS : Z := 0x17.
Definition EV_MAX : Z := 0x1f.
Definition EV_CNT : Z := EV_MAX + 1.

Definition SYN_MAX : Z := 0x0f.
Definition KEY_MAX : Z := 0x2ff.
Definition REL_MAX : Z := 0x0f.
Definition ABS_MAX : Z := 0x3f.
Definition SW_MAX : Z := 0x11.
Definition MSC_MAX : Z := 0x07.
Definition LED_MAX : Z := 0x0f.
Definition REP_MAX : Z := 0x01.
Definition SND_MAX : Z := 0x07.
Definition FF_STATUS_MAX : Z := 0x01.
Definition FF_MAX : Z := 0x7F.

(** The rune ['E']. *)
Definition E : Z := 0x45.

(** h.go, [type ID struct]: four [uint16] fields. *)
Record ID : Type := {
  Bustype : Z;
  Vendor : Z;
  Product : Z;
  Version : Z
}.

(** [unsafe.Sizeof(ID{})]: four two-byte fields, no padding. *)
Definition sizeof_ID : Z := 8.

(** The zero value of [ID] in memory. *)
Definition ID_zero_bytes : list byte := make sizeof_ID.

(** A [uint16] held in two bytes, low byte first: the layout of the
    little-endian machines the kernel ABI of the package addresses. *)
Definition uint16_le (lo hi : byte) : Z :=
  Z.lor (byte_val lo) (Z.shiftl (byte_val hi) 8).

(** The value of an [ID] whose memory holds [mem]: the fields lie in
    declaration order at offsets 0, 2, 4 and 6. *)
Definition ID_of_bytes (mem : list byte) : option ID :=
  match mem with
  | [b0; b1; b2; b3; b4; b5; b6; b7] =>
      Some {| Bustype := uint16_le b0 b1;
              Vendor := uint16_le b2 b3;
              Product := uint16_le b4 b5;
              Version := uint16_le b6 b7 |}
  | _ => None
  end.

Definition EVIOCGID : Z := ioctl.IOR E 0x02 sizeof_ID.

Definition EVIOCGNAME (length : Z) : Z :=
  ioctl.IOC ioctl.IOC_READ E 0x06 length.

Definition EVIOCGBIT (ev length : Z) : Z :=
  ioctl.IOC ioctl.IOC_READ E (uint (0x20 + ev)) length.

Definition ErrInvalidEventType : error := errorString "invalid event type".

(** h.go, [TestBit]: [b[pos/8]&(1<<(pos%8)) != 0].  The index is
    checked against the length of [b]; the shift is a [byte] shift. *)
Definition TestBit (b : list byte) (pos : Z) : option bool :=
  match b !! Z.to_nat (pos / 8) with
  | Some x =>
      Some (negb (Z.land (byte_val x) (uint8 (Z.shiftl 1 (pos mod 8))) =? 0))
  | None => None
  end.

(** h.go, [MaxCodes]: the map literal and the two-valued lookup. *)
Definition maxCodes_table : gmap Z Z :=
  <[EV_SYN := SYN_MAX]>
  (<[EV_KEY := KEY_MAX]>
  (<[EV_REL := REL_MAX]>
  (<[EV_ABS := ABS_MAX]>
  (<[EV_MSC := MSC_MAX]>
  (<[EV_SW := SW_MAX]>
  (<[EV_LED := LED_MAX]>
  (<[EV_SND := SND_MAX]>
  (<[EV_REP := REP_MAX]>
  (<[EV_FF := FF_MAX]>
  (<[EV_PWR := 0]>
  (<[EV_FF_STATUS := FF_STATUS_MAX]> ∅))))))))))).

Definition MaxCodes (eventType : Z) : Z * bool :=
  match maxCodes_table !! eventType with
  | Some maxCode => (maxCode, true)
  | None => (0, false)
  end.

(** device.go, [type Device struct]. *)
Record Device : Type := {
  file : File;
  fd : Z
}.

(** device.go, [NewDevice].  A [*Device] is [None] when nil. *)
Definition NewDevice (os : OS) (path : string)
  : M (option Device * option error) :=
  do r <- OpenFile os (Clean os path) O_RDWR 0 ;;
  match r with
  | OpenErr err => ret (None, Some (Errorf "input.NewDevice: %w" err []))
  | Opened f => ret (Some {| file := f; fd := Fd f |}, None)
  end.

(** The [for _, path = range paths] loop of [Devices]. *)
Fixpoint Devices_loop (os : OS) (paths : list string)
    (devices : list (option Device))
  : M (option (list (option Device)) * option error) :=
  match paths with
  | [] => ret (Some devices, None)
  | path :: rest =>
      do '(device, err) <- NewDevice os path ;;
      match err with
      | Some e => ret (None, Some (Errorf "input.Devices: %w" e []))
      | None => Devices_loop os rest (devices ++ [device])
      end
  end.

(** device.go, [Devices].  A slice is [None] when nil. *)
Definition Devices (os : OS)
  : M (option (list (option Device)) * option error) :=
  do r <- Glob os "/dev/input/event*" ;;
  match r with
  | GlobErr err => ret (None, Some (Errorf "input.Devices: %w" err []))
  | GlobOk paths => Devices_loop os paths []
  end.

(** The verb [%x] of [fmt] on an unsigned integer. *)
Definition fmt_x (n : Z) : string :=
  match n with
  | Zpos p => HexString.Raw.of_pos p ""
  | _ => "0"
  end.

(** device.go, [Device.ID]. *)
Definition Device_ID (os : OS) (dev : Device) : M (string * option error) :=
  do '(mem, err) <- ioctl.Any os (fd dev) EVIOCGID ID_zero_bytes ;;
  match err with
  | Some e => ret (""%string, Some (Errorf "Device.ID: %w" e []))
  | None =>
      do id <- lift (ID_of_bytes mem) ;;
      ret (("bus 0x" ++ fmt_x (Bustype id) ++
            " vendor 0x" ++ fmt_x (Vendor id) ++
            " product 0x" ++ fmt_x (Product id) ++
            " version 0x" ++ fmt_x (Version id))%string, None)
  end.

(** The [for eventType = range EV_CNT] loop of [Events]. *)
Fixpoint Events_loop (buf : list byte) (todo : list Z) (events : list Z)
  : option (list Z) :=
  match todo with
  | [] => Some events
  | eventType :: rest =>
      match TestBit buf (uint eventType) with
      | None => None
      | Some false => Events_loop buf rest events
      | Some true =>
          if decide (eventType = EV_REP)
          then Events_loop buf rest events
          else Events_loop buf rest (events ++ [eventType])
      end
  end.

(** device.go, [Device.Events]. *)
Definition Events (os : OS) (dev : Device)
  : M (option (list Z) * option error) :=
  let buf := make ((EV_MAX + 7) / 8) in
  do p <- addr_index0 buf ;;
  do '(buf, err) <- ioctl.Any os (fd dev) (EVIOCGBIT 0 (uint (len buf))) p ;;
  match err with
  | Some e => ret (None, Some (Errorf "Device.Events: %w" e []))
  | None =>
      do events <- lift (Events_loop buf (seqZ 0 EV_CNT) []) ;;
      ret (Some events, None)
  end.

(** The [for code = range maxCodes + 1] loop of [Codes]. *)
Fixpoint Codes_loop (buf : list byte) (todo : list Z) (codes : list Z)
  : option (list Z) :=
  match todo with
  | [] => Some codes
  | code :: rest =>
      match TestBit buf code with
      | None => None
      | Some false => Codes_loop buf rest codes
      | Some true => Codes_loop buf rest (codes ++ [code])
      end
  end.

(** Lines 186-196 of [Codes]: the decoding of the buffer the kernel
    filled, for codes [0] to [maxCodes]. *)
Definition Codes_decode (buf : list byte) (maxCodes : Z) : option (list Z) :=
  Codes_loop buf (seqZ 0 (uint (maxCodes + 1))) [].

(** The length [(maxCodes+7)/8] of the buffer [Codes] makes. *)
Definition Codes_buflen (maxCodes : Z) : Z := uint (maxCodes + 7) / 8.

(** device.go, [Device.Codes]. *)
Definition Codes (os : OS) (dev : Device) (eventType : Z)
  : M (option (list Z) * option error) :=
  let '(maxCodes, ok) := MaxCodes eventType in
  if negb ok
  then ret (None,
            Some (Errorf "Device.Codes: %w %d" ErrInvalidEventType [eventType]))
  else
    let buf := make (Codes_buflen maxCodes) in
    do p <- addr_index0 buf ;;
    do '(buf, err) <-
      ioctl.Any os (fd dev) (EVIOCGBIT (uint eventType) (uint (len buf))) p ;;
    match err with
    | Some e => ret (None, Some (Errorf "Device.Codes: %w" e []))
    | None =>
        do codes <- lift (Codes_decode buf maxCodes) ;;
        ret (Some codes, None)
    end.

(** device.go, [Device.Name]. *)
Definition Name (os : OS) (dev : Device) : M (list byte * option error) :=
  let buf := make 256 in
  do p <- addr_index0 buf ;;
  do '(buf, err) <- ioctl.Any os (fd dev) (EVIOCGNAME 256) p ;;
  match err with
  | Some e => ret ([], Some (Errorf "Device.Name: %w" e []))
  | None => ret (ByteSliceToString buf, None)
  end.

End input.

(** ** The vocabulary of the statements *)

(** Bit [i] lies in byte [i/8] at position [i%8]; a bit outside the
    buffer is not set. *)
Definition bit_set (buf : list byte) (i : Z) : bool :=
  match buf !! Z.to_nat (i / 8) with
  | Some x => Z.testbit (byte_val x) (i mod 8)
  | None => false
  end.

(** The length [ceil((max+1)/8)] of the bitset for codes [0] to [max]. *)
Definition bitset_len (max : Z) : Z := (max + 1 + 7) / 8.

(** A string without a space character. *)
Fixpoint nospace (s : string) : bool :=
  match s with
  | EmptyString => true
  | String c s' => negb (Ascii.eqb c Ascii.Space) && nospace s'
  end.

(** The opens [Devices] has made once it reaches the [i]-th path. *)
Definition opens (os : OS) (paths : list string) (i : nat) : list event :=
  map (fun p => EvOpen (Clean os p) O_RDWR 0) (take i paths).

(** The twelve entries of the bound table. *)
Definition table_entries : list (Z * Z) :=
  [(input.EV_SYN, input.SYN_MAX); (input.EV_KEY, input.KEY_MAX);
   (input.EV_REL, input.REL_MAX); (input.EV_ABS, input.ABS_MAX);
   (input.EV_MSC, input.MSC_MAX); (input.EV_SW, input.SW_MAX);
   (input.EV_LED, input.LED_MAX); (input.EV_SND, input.SND_MAX);
   (input.EV_REP, input.REP_MAX); (input.EV_FF, input.FF_MAX);
   (input.EV_PWR, 0); (input.EV_FF_STATUS, input.FF_STATUS_MAX)].

(** ** A machine to run the package on *)

Module example.

(** The identity of a USB device as the kernel stores it. *)
Definition identity_payload : list byte :=
  [x03; x00; x6d; x04; x8e; xc2; x11; x01].

(** Two event nodes match the pattern; the nodes listed in [missing] are
    gone by the time they are opened.  Every other open yields a fresh
    descriptor.  The identity query answers [identity_payload], a
    bitmask query answers with every bit set. *)
Definition machine (missing : list string) : OS := {|
  Clean := fun path => path;
  sys_glob := fun _ _ => GlobOk ["/dev/input/event0"; "/dev/input/event1"]%string;
  sys_open := fun h name _ _ =>
    if bool_decide (name ∈ missing)
    then OpenErr (PathError "open" name (Errno ENOENT))
    else Opened {| Fd := 3 + len h |};
  sys_ioctl := fun _ _ req mem =>
    if req =? input.EVIOCGID then (0, identity_payload)
    else (0, replicate (length mem) xff)
|}.

Definition dev : input.Device := {| input.file := {| Fd := 3 |}; input.fd := 3 |}.

Definition ENODEV : Z := 19.

(** The same nodes after the device was unplugged: every ioctl fails with
    [ENODEV] and copies nothing. *)
Definition unplugged : OS := {|
  Clean := fun path => path;
  sys_glob := fun _ _ => GlobOk ["/dev/input/event0"; "/dev/input/event1"]%string;
  sys_open := fun h name _ _ => Opened {| Fd := 3 + len h |};
  sys_ioctl := fun _ _ _ _ => (ENODEV, [])
|}.

Definition EISDIR : Z := 21.

(** How the empty path fares: the system call reports the empty name as
    missing, [filepath.Clean] turns it into ".", and the current directory
    cannot be opened for writing. *)
Definition empty_path : OS := {|
  Clean := fun path => if String.eqb path "" then "."%string else path;
  sys_glob := fun _ _ => GlobOk [];
  sys_open := fun _ name _ _ =>
    if String.eqb name "."
    then OpenErr (PathError "open" name (Errno EISDIR))
    else OpenErr (PathError "open" name (Errno ENOENT));
  sys_ioctl := fun _ _ _ _ => (0, [])
|}.

End example.

(** ** Package xdg (xdg.go): the choice of a base directory

    The process environment is a finite map; [filepath.Join] is left
    abstract, [filepath.IsAbs] is the Unix test for a leading slash. *)

Module xdg.

Section Environment.

Variable environ : gmap string string.
Variable Join : list string -> string.

(** [os.Getenv]: the empty string when the variable is not set. *)
Definition Getenv (key : string) : string := default ""%string (environ !! key).

Definition IsAbs (path : string) : bool := String.prefix "/" path.

Definition home : string :=
  let home := Getenv "HOME" in
  if String.eqb home "" then "/"%string else home.

Definition xdg (env : string) (subPaths : list string) : string :=
  let env := Getenv env in
  if String.eqb env "" || negb (IsAbs env) then Join subPaths else env.

End Environment.

End xdg.

(** ** Properties of the codec *)

Section Fields.

(** A field that fits its width has no bit set at or above it. *)
Lemma testbit_above (w x i : Z) :
  0 <= w -> 0 <= x < 2 ^ w -> w <= i -> Z.testbit x i = false.
Proof.
  intros Hw Hx Hi.
  destruct (Z.eq_dec x 0) as [->|Hne]; [apply Z.bits_0|].
  apply Z.bits_above_log2; [lia|].
  assert (Z.log2 x < w); [|lia].
  apply Z.log2_lt_pow2; lia.
Qed.

(** Placing [b] above a [k]-bit field [a] with [|] adds them. *)
Lemma lor_shiftl_add (a b k : Z) :
  0 <= k -> 0 <= a < 2 ^ k -> Z.lor a (Z.shiftl b k) = a + b * 2 ^ k.
Proof.
  intros Hk Ha.
  rewrite <- Z.shiftl_mul_pow2 by lia.
  rewrite <- Z.lxor_lor, <- Z.add_nocarry_lxor; trivial;
    apply Z.bits_inj'; intros i Hi; rewrite Z.land_spec, Z.bits_0;
    (destruct (Z.lt_ge_cases i k);
     [rewrite Z.shiftl_spec_low by lia; apply andb_false_r
     |rewrite (testbit_above k a i) by lia; reflexivity]).
Qed.

Lemma land_mask (x w : Z) :
  0 <= w -> Z.land x (Z.shiftl 1 w - 1) = x mod 2 ^ w.
Proof.
  intros Hw. rewrite Z.shiftl_1_l, <- Z.land_ones by lia.
  now rewrite Z.ones_equiv, Z.sub_1_r.
Qed.

(** The order in which the four fields are or-ed is immaterial. *)
Lemma lor_reorder (d t n s : Z) :
  Z.lor (Z.lor (Z.lor d t) n) s = Z.lor (Z.lor (Z.lor n t) s) d.
Proof.
  apply Z.bits_inj'; intros i _. rewrite !Z.lor_spec.
  destruct (Z.testbit d i), (Z.testbit t i), (Z.testbit n i), (Z.testbit s i);
    reflexivity.
Qed.

End Fields.

Import ioctl.

(** On fields that fit their widths no shift of [IOC] overflows and the
    request code is the sum of the four fields at their offsets. *)
Lemma IOC_sum (dir typ nr size : Z) :
  0 <= dir < 4 -> 0 <= typ < 256 -> 0 <= nr < 256 -> 0 <= size < 16384 ->
  IOC dir typ nr size = nr + typ * 2 ^ 8 + size * 2 ^ 16 + dir * 2 ^ 30.
Proof.
  intros Hd Ht Hn Hs. unfold IOC, uint.
  rewrite !Z.shiftl_mul_pow2 by (cbv; discriminate).
  change IOC_DIRSHIFT with 30. change IOC_TYPESHIFT with 8.
  change IOC_NRSHIFT with 0. change IOC_SIZESHIFT with 16.
  change uint_bits with 64.
  rewrite !Z.mod_small by lia.
  rewrite <- !Z.shiftl_mul_pow2 by lia.
  rewrite Z.shiftl_0_r.
  rewrite (lor_reorder (Z.shiftl dir 30)).
  rewrite (lor_shiftl_add nr typ 8) by lia.
  rewrite (lor_shiftl_add _ size 16) by lia.
  rewrite (lor_shiftl_add _ dir 30) by lia.
  rewrite !Z.shiftl_mul_pow2 by lia. reflexivity.
Qed.

(** C1. For every direction in {0,1,2,3}, every typeMagic and number in
    [0,255] and every size in [0,16383], unpacking a packed request code
    gives back exactly the four packed fields. *)
Theorem IOC_roundtrip (dir typ nr size : Z) :
  0 <= dir <= 3 -> 0 <= typ <= 255 -> 0 <= nr <= 255 -> 0 <= size <= 16383 ->
  IOC_DIR (IOC dir typ nr size) = dir /\
  IOC_TYPE (IOC dir typ nr size) = typ /\
  IOC_NR (IOC dir typ nr size) = nr /\
  IOC_SIZE (IOC dir typ nr size) = size.
Proof.
  intros Hd Ht Hn Hs.
  rewrite IOC_sum by lia.
  unfold IOC_DIR, IOC_TYPE, IOC_NR, IOC_SIZE.
  unfold IOC_DIRMASK, IOC_TYPEMASK, IOC_NRMASK, IOC_SIZEMASK.
  rewrite !land_mask by (cbv; discriminate).
  rewrite !Z.shiftr_div_pow2 by (cbv; discriminate).
  change IOC_DIRSHIFT with 30. change IOC_TYPESHIFT with 8.
  change IOC_NRSHIFT with 0. change IOC_SIZESHIFT with 16.
  change IOC_DIRBITS with 2. change IOC_TYPEBITS with 8.
  change IOC_NRBITS with 8. change IOC_SIZEBITS with 14.
  change (2 ^ 30) with 1073741824. change (2 ^ 16) with 65536.
  change (2 ^ 14) with 16384. change (2 ^ 8) with 256.
  change (2 ^ 2) with 4. change (2 ^ 0) with 1.
  repeat split; Z.div_mod_to_equations; lia.
Qed.

Lemma IOC_roundtrip_witness :
  IOC_DIR (IOC 2 69 32 96) = 2 /\ IOC_TYPE (IOC 2 69 32 96) = 69 /\
  IOC_NR (IOC 2 69 32 96) = 32 /\ IOC_SIZE (IOC 2 69 32 96) = 96.
Proof. apply (IOC_roundtrip 2 69 32 96); lia. Defined.

(** On fields that fit their widths no shift of [IOC] overflows. *)
Lemma IOC_lor (dir typ nr size : Z) :
  0 <= dir < 4 -> 0 <= typ < 256 -> 0 <= nr < 256 -> 0 <= size < 16384 ->
  IOC dir typ nr size =
  Z.lor (Z.lor (Z.lor (Z.shiftl dir 30) (Z.shiftl typ 8)) nr) (Z.shiftl size 16).
Proof.
  intros Hd Ht Hn Hs. unfold IOC, uint.
  change IOC_DIRSHIFT with 30. change IOC_TYPESHIFT with 8.
  change IOC_NRSHIFT with 0. change IOC_SIZESHIFT with 16.
  change uint_bits with 64.
  rewrite Z.shiftl_0_r.
  rewrite !Z.mod_small; trivial; rewrite ?Z.shiftl_mul_pow2 by lia; lia.
Qed.

(** Bits below the offset of a shifted field are clear. *)
Ltac low_bits :=
  repeat match goal with
         | |- context [Z.testbit ?a (?i - ?k)] =>
             rewrite (Z.testbit_neg_r a (i - k)) by lia
         end.

(** C3. The request code of the category-bitmask query with category 0
    and length 4 is the value packed from direction read, typeMagic 0x45,
    number 0x20 and size 4; in a packed code the number occupies bits
    [0,8), the typeMagic bits [8,16), the size bits [16,30) and the
    direction bits [30,32). *)
Theorem EVIOCGBIT_0_4_packed :
  input.EVIOCGBIT 0 4 = IOC IOC_READ 0x45 0x20 4 /\
  IOC IOC_READ 0x45 0x20 4 = 0x80044520 /\
  forall dir typ nr size i : Z,
    0 <= dir < 4 -> 0 <= typ < 256 -> 0 <= nr < 256 -> 0 <= size < 16384 ->
    0 <= i ->
    Z.testbit (IOC dir typ nr size) i =
      if i <? 8 then Z.testbit nr i
      else if i <? 16 then Z.testbit typ (i - 8)
      else if i <? 30 then Z.testbit size (i - 16)
      else if i <? 32 then Z.testbit dir (i - 30)
      else false.
Proof.
  split; [reflexivity|]. split; [reflexivity|].
  intros dir typ nr size i Hd Ht Hn Hs Hi.
  rewrite IOC_lor by assumption.
  rewrite !Z.lor_spec, !Z.shiftl_spec by assumption.
  destruct (Z.ltb_spec i 8).
  { low_bits. now rewrite ?orb_false_r. }
  rewrite (testbit_above 8 nr i) by lia.
  destruct (Z.ltb_spec i 16).
  { low_bits. now rewrite ?orb_false_r. }
  rewrite (testbit_above 8 typ (i - 8)) by lia.
  destruct (Z.ltb_spec i 30).
  { low_bits. now rewrite ?orb_false_r. }
  rewrite (testbit_above 14 size (i - 16)) by lia.
  destruct (Z.ltb_spec i 32).
  { now rewrite ?orb_false_r. }
  rewrite (testbit_above 2 dir (i - 30)) by lia. reflexivity.
Qed.

Lemma EVIOCGBIT_0_4_packed_witness :
  Z.testbit (IOC 2 0x45 0x20 4) 18 = Z.testbit 4 2.
Proof.
  exact (proj2 (proj2 EVIOCGBIT_0_4_packed) 2 0x45 0x20 4 18
           ltac:(lia) ltac:(lia) ltac:(lia) ltac:(lia) ltac:(lia)).
Defined.

Import input.

(** ** Bitmask decoding *)

(** Masking with [1<<k] tests bit [k]. *)
Lemma land_bit_eqb (x k : Z) :
  0 <= k -> (Z.land x (Z.shiftl 1 k) =? 0) = negb (Z.testbit x k).
Proof.
  intros Hk. rewrite Z.shiftl_1_l.
  destruct (Z.testbit x k) eqn:Hb; simpl.
  - apply Z.eqb_neq. intros H0.
    assert (Z.testbit (Z.land x (2 ^ k)) k = true) as Ht.
    { rewrite Z.land_spec, Hb, Z.pow2_bits_true by lia. reflexivity. }
    rewrite H0, Z.bits_0 in Ht. discriminate.
  - apply Z.eqb_eq. apply Z.bits_inj'. intros i Hi.
    rewrite Z.land_spec, Z.bits_0, Z.pow2_bits_eqb by lia.
    destruct (Z.eqb_spec k i) as [->|_]; [now rewrite Hb|apply andb_false_r].
Qed.

(** The [byte] shift of [TestBit] never overflows. *)
Lemma uint8_bit (pos : Z) :
  uint8 (Z.shiftl 1 (pos mod 8)) = Z.shiftl 1 (pos mod 8).
Proof.
  unfold uint8.
  assert (0 <= pos mod 8 < 8) as Hr by (apply Z.mod_pos_bound; lia).
  rewrite Z.shiftl_1_l. apply Z.mod_small. split.
  - apply Z.pow_nonneg; lia.
  - apply Z.pow_lt_mono_r; lia.
Qed.

(** [TestBit] reads bit [pos%8] of byte [pos/8]. *)
Lemma TestBit_spec (b : list byte) (pos : Z) (x : byte) :
  b !! Z.to_nat (pos / 8) = Some x ->
  TestBit b pos = Some (Z.testbit (byte_val x) (pos mod 8)).
Proof.
  intros Hx. unfold TestBit. rewrite Hx, uint8_bit, land_bit_eqb.
  - now rewrite negb_involutive.
  - apply Z.mod_pos_bound; lia.
Qed.

Lemma TestBit_panics (b : list byte) (pos : Z) :
  (length b <= Z.to_nat (pos / 8))%nat -> TestBit b pos = None.
Proof.
  intros Hl. unfold TestBit. now rewrite (lookup_ge_None_2 b _ Hl).
Qed.

(** A bit inside the buffer is what [TestBit] answers. *)
Lemma TestBit_bit_set (b : list byte) (pos : Z) :
  0 <= pos -> pos / 8 < len b -> TestBit b pos = Some (bit_set b pos).
Proof.
  intros Hp Hl. unfold bit_set.
  destruct (b !! Z.to_nat (pos / 8)) as [x|] eqn:Hx.
  - now apply TestBit_spec.
  - apply lookup_ge_None in Hx. unfold len in Hl.
    assert (0 <= pos / 8) by (apply Z.div_pos; lia). lia.
Qed.

(** The loop of [Codes] keeps, in order, the codes whose test succeeds. *)
Lemma Codes_loop_filter (buf : list byte) (P : Z -> bool) (todo codes : list Z) :
  (forall c, c ∈ todo -> TestBit buf c = Some (P c)) ->
  Codes_loop buf todo codes = Some (codes ++ List.filter P todo).
Proof.
  revert codes. induction todo as [|c todo IH]; intros codes Hall; simpl.
  - now rewrite app_nil_r.
  - rewrite (Hall c) by left.
    assert (forall c', c' ∈ todo -> TestBit buf c' = Some (P c')) as Hrest
      by (intros c' Hc'; apply Hall; now right).
    destruct (P c).
    + rewrite IH by exact Hrest. now rewrite <- app_assoc.
    + now apply IH.
Qed.

(** Decoding a buffer that covers [maxCodes] reads every bit in bounds. *)
Lemma Codes_decode_in_bounds (buf : list byte) (maxCodes : Z) :
  0 <= maxCodes < 2 ^ 64 - 1 -> maxCodes / 8 < len buf ->
  Codes_decode buf maxCodes =
  Some (List.filter (bit_set buf) (seqZ 0 (maxCodes + 1))).
Proof.
  intros Hm Hl. unfold Codes_decode, uint. change uint_bits with 64.
  rewrite Z.mod_small by lia.
  rewrite (Codes_loop_filter buf (bit_set buf)); [reflexivity|].
  intros c Hc. apply elem_of_seqZ in Hc.
  apply TestBit_bit_set; [lia|].
  assert (c / 8 <= maxCodes / 8) by (apply Z.div_le_mono; lia). lia.
Qed.

Lemma filter_none {A} (P : A -> bool) (l : list A) :
  (forall x, x ∈ l -> P x = false) -> List.filter P l = [].
Proof.
  induction l as [|a l IH]; intros Hall; simpl; [reflexivity|].
  rewrite (Hall a) by left. apply IH. intros x Hx. apply Hall. now right.
Qed.

Lemma filter_all {A} (P : A -> bool) (l : list A) :
  (forall x, x ∈ l -> P x = true) -> List.filter P l = l.
Proof.
  induction l as [|a l IH]; intros Hall; simpl; [reflexivity|].
  rewrite (Hall a) by left. f_equal. apply IH. intros x Hx. apply Hall. now right.
Qed.

Lemma bit_set_replicate (n : nat) (x : byte) (i : Z) :
  0 <= i -> i / 8 < Z.of_nat n ->
  bit_set (replicate n x) i = Z.testbit (byte_val x) (i mod 8).
Proof.
  intros Hi Hl. unfold bit_set.
  assert (0 <= i / 8) by (apply Z.div_pos; lia).
  rewrite lookup_replicate_2 by lia. reflexivity.
Qed.

(** C4. Bit [i] of a buffer is read from byte [i/8] at position [i%8]
    whenever that byte exists; decoding an all-zero buffer that covers
    [maxIndex] yields no index, and decoding an all-ones buffer of length
    [ceil((maxIndex+1)/8)] yields exactly the indices 0 to [maxIndex]. *)
Theorem decode_bit_convention :
  (forall (b : list byte) (i : Z),
      0 <= i -> i / 8 < len b ->
      exists x, b !! Z.to_nat (i / 8) = Some x /\
                TestBit b i = Some (Z.testbit (byte_val x) (i mod 8))) /\
  (forall (n : nat) (maxIndex : Z),
      0 <= maxIndex < 2 ^ 64 - 1 -> maxIndex / 8 < Z.of_nat n ->
      Codes_decode (replicate n x00) maxIndex = Some []) /\
  (forall maxIndex : Z,
      0 <= maxIndex < 2 ^ 64 - 1 ->
      Codes_decode (replicate (Z.to_nat (bitset_len maxIndex)) xff) maxIndex =
      Some (seqZ 0 (maxIndex + 1))).
Proof.
  split; [|split].
  - intros b i Hi Hl.
    assert (0 <= i / 8) by (apply Z.div_pos; lia).
    destruct (lookup_lt_is_Some_2 b (Z.to_nat (i / 8))) as [x Hx].
    { unfold len in Hl. lia. }
    exists x. split; [exact Hx|now apply TestBit_spec].
  - intros n maxIndex Hm Hl.
    rewrite Codes_decode_in_bounds; trivial.
    + f_equal. apply filter_none. intros c Hc. apply elem_of_seqZ in Hc.
      assert (c / 8 <= maxIndex / 8) by (apply Z.div_le_mono; lia).
      rewrite bit_set_replicate by lia. apply Z.bits_0.
    + unfold len. rewrite length_replicate. lia.
  - intros maxIndex Hm.
    assert (maxIndex / 8 < bitset_len maxIndex) as Hcover.
    { unfold bitset_len. Z.div_mod_to_equations. lia. }
    rewrite Codes_decode_in_bounds; trivial.
    + f_equal. apply filter_all. intros c Hc. apply elem_of_seqZ in Hc.
      assert (c / 8 <= maxIndex / 8) by (apply Z.div_le_mono; lia).
      rewrite bit_set_replicate by lia.
      assert (0 <= c mod 8 < 8) as Hr by (apply Z.mod_pos_bound; lia).
      change (byte_val xff) with (Z.ones 8).
      apply Z.ones_spec_low. lia.
    + unfold len. rewrite length_replicate. lia.
Qed.

Lemma decode_bit_convention_witness :
  Codes_decode (replicate (Z.to_nat (bitset_len 17)) xff) 17 = Some (seqZ 0 18).
Proof.
  exact (proj2 (proj2 decode_bit_convention) 17 ltac:(lia)).
Defined.

(** ** Running [Events] and [Codes] *)

Lemma uint_small (z : Z) : 0 <= z < 2 ^ 64 -> uint z = z.
Proof. intros Hz. unfold uint. change uint_bits with 64. now apply Z.mod_small. Qed.

Lemma uint_land (z : Z) : uint z = Z.land z (Z.ones 64).
Proof. unfold uint. change uint_bits with 64. now rewrite Z.land_ones by lia. Qed.

(** A request code built by [IOC] is a [uint] already: its conversion to
    [uintptr] in [Any] changes nothing. *)
Lemma uint_IOC (dir typ nr size : Z) :
  uint (IOC dir typ nr size) = IOC dir typ nr size.
Proof.
  unfold IOC. rewrite !uint_land, <- !Z.land_lor_distr_l.
  now rewrite <- Z.land_assoc, Z.land_diag.
Qed.

Lemma uint_EVIOCGBIT (ev length : Z) :
  uint (EVIOCGBIT ev length) = EVIOCGBIT ev length.
Proof. apply uint_IOC. Qed.

Lemma length_make (n : Z) : length (make n) = Z.to_nat n.
Proof. apply length_replicate. Qed.

Lemma len_make (n : Z) : 0 <= n -> len (make n) = n.
Proof. intros Hn. unfold len, make. rewrite length_replicate. lia. Qed.

(** The kernel's copy leaves the length of the object unchanged. *)
Lemma len_copy_to_user (mem data : list byte) :
  len (copy_to_user mem data) = len mem.
Proof.
  unfold len, copy_to_user. rewrite length_app, length_take, length_drop. lia.
Qed.

(** The loop of [Events] keeps, in order, the categories whose bit is set,
    [EV_REP] apart. *)
Lemma Events_loop_filter (buf : list byte) (todo events : list Z) :
  (forall c, c ∈ todo -> 0 <= c < 2 ^ 64 /\ c / 8 < len buf) ->
  Events_loop buf todo events =
  Some (events ++
        List.filter (fun c => bit_set buf c && negb (c =? EV_REP)) todo).
Proof.
  revert events. induction todo as [|c todo IH]; intros events Hall; simpl.
  - now rewrite app_nil_r.
  - destruct (Hall c) as [Hc Hl]; [left|].
    assert (forall c', c' ∈ todo -> 0 <= c' < 2 ^ 64 /\ c' / 8 < len buf)
      as Hrest by (intros c' Hc'; apply Hall; now right).
    rewrite uint_small, TestBit_bit_set by lia.
    destruct (bit_set buf c); simpl; [|now apply IH].
    destruct (decide (c = EV_REP)) as [->|Hne].
    + rewrite Z.eqb_refl. simpl. now apply IH.
    + apply Z.eqb_neq in Hne. rewrite Hne. simpl.
      rewrite IH by exact Hrest. now rewrite <- app_assoc.
Qed.

(** C6. Whatever buffer the kernel returns for the category bitmask, the
    list [Events] returns never contains [EV_REP], and every other
    category in [0, EV_MAX] is in it exactly when its bit is set in the
    buffer. *)
Theorem Events_drops_EV_REP (os : OS) (dev : Device) (h : list event)
    (data : list byte) :
  sys_ioctl os h (fd dev) (EVIOCGBIT 0 4) (make 4) = (0, data) ->
  let raw := copy_to_user (make 4) data in
  exists events : list Z,
    Events os dev h =
      Some ((Some events, None), h ++ [EvIoctl (fd dev) (EVIOCGBIT 0 4) 4]) /\
    (EV_REP ∉ events) /\
    (forall c, 0 <= c <= EV_MAX -> c <> EV_REP ->
               (c ∈ events <-> bit_set raw c = true)) /\
    (forall c, c ∈ events -> 0 <= c <= EV_MAX).
Proof.
  intros Hk raw.
  exists (List.filter (fun c => bit_set raw c && negb (c =? EV_REP))
                      (seqZ 0 EV_CNT)).
  assert (forall c, c ∈ seqZ 0 EV_CNT -> 0 <= c < 2 ^ 64 /\ c / 8 < len raw)
    as Hbounds.
  { intros c Hc. apply elem_of_seqZ in Hc. change EV_CNT with 32 in Hc.
    unfold raw. rewrite len_copy_to_user, len_make by lia.
    split; [lia|]. Z.div_mod_to_equations. lia. }
  split; [|split; [|split]].
  - unfold Events, bind. change (make ((EV_MAX + 7) / 8)) with (make 4).
    change (addr_index0 (make 4) h) with (Some (make 4, h)). cbv beta iota.
    change (uint (len (make 4))) with 4.
    unfold Any. rewrite uint_EVIOCGBIT, Hk.
    destruct (decide (0 <> 0)) as [Hne|_]; [now destruct Hne|].
    cbv beta iota. unfold lift. fold raw.
    rewrite (Events_loop_filter raw) by exact Hbounds. reflexivity.
  - rewrite list_elem_of_In, filter_In. intros [_ Hc].
    rewrite Z.eqb_refl, andb_false_r in Hc. discriminate.
  - intros c Hc Hne. rewrite list_elem_of_In, filter_In, <- list_elem_of_In.
    rewrite elem_of_seqZ. change EV_CNT with 32. change EV_MAX with 31 in Hc.
    apply Z.eqb_neq in Hne. rewrite Hne, andb_true_r. intuition lia.
  - intros c. rewrite list_elem_of_In, filter_In, <- list_elem_of_In.
    rewrite elem_of_seqZ. change EV_CNT with 32. change EV_MAX with 31. lia.
Qed.

Lemma Events_drops_EV_REP_witness :
  exists events : list Z,
    Events (example.machine []) example.dev [] =
      Some ((Some events, None), [] ++ [EvIoctl 3 (EVIOCGBIT 0 4) 4]) /\
    (EV_REP ∉ events) /\
    (forall c, 0 <= c <= EV_MAX -> c <> EV_REP ->
               (c ∈ events <-> bit_set (copy_to_user (make 4) (replicate 4 xff)) c = true)) /\
    (forall c, c ∈ events -> 0 <= c <= EV_MAX).
Proof.
  exact (Events_drops_EV_REP (example.machine []) example.dev []
           (replicate 4 xff) eq_refl).
Defined.

Lemma maxCodes_table_entries (eventType maxCode : Z) :
  maxCodes_table !! eventType = Some maxCode <->
  (eventType, maxCode) ∈ table_entries.
Proof.
  change maxCodes_table with (list_to_map table_entries : gmap Z Z).
  symmetry. apply elem_of_list_to_map.
  vm_compute. repeat constructor; rewrite ?list_elem_of_In; simpl; intuition discriminate.
Qed.

(** What [Codes] does on a category whose table maximum is not a multiple
    of eight: one bitmask query with a buffer of [bitset_len] bytes, then
    the decoding of the buffer the kernel filled. *)
Lemma Codes_run (os : OS) (dev : Device) (eventType maxCode : Z)
    (h : list event) (errno : Z) (data : list byte) :
  maxCodes_table !! eventType = Some maxCode ->
  0 <= eventType < 2 ^ 64 -> 0 <= maxCode < 2 ^ 32 -> maxCode mod 8 <> 0 ->
  let n := bitset_len maxCode in
  sys_ioctl os h (fd dev) (EVIOCGBIT eventType n) (make n) = (errno, data) ->
  Codes os dev eventType h =
  Some (if decide (errno <> 0)
        then (None, Some (Errorf "Device.Codes: %w" (Errno errno) []))
        else (Some (List.filter (bit_set (copy_to_user (make n) data))
                                (seqZ 0 (maxCode + 1))), None),
        h ++ [EvIoctl (fd dev) (EVIOCGBIT eventType n) (Z.to_nat n)]).
Proof.
  intros Ht He Hm Hmod n Hk.
  assert (Codes_buflen maxCode = n) as Hn.
  { unfold Codes_buflen, n, bitset_len. rewrite uint_small by lia.
    Z.div_mod_to_equations. lia. }
  assert (0 < n < 2 ^ 32 /\ maxCode / 8 < n) as [Hpos Hcover].
  { unfold n, bitset_len. Z.div_mod_to_equations. lia. }
  unfold Codes, MaxCodes. rewrite Ht. change (negb true) with false.
  cbv beta iota. rewrite Hn. unfold bind.
  assert (addr_index0 (make n) h = Some (make n, h)) as ->.
  { unfold make. destruct (Z.to_nat n) eqn:Hz; [lia|reflexivity]. }
  cbv beta iota.
  rewrite len_make, (uint_small n), (uint_small eventType) by lia.
  unfold Any. rewrite uint_EVIOCGBIT, Hk.
  rewrite length_make.
  destruct (decide (errno <> 0)); cbv beta iota; [reflexivity|].
  unfold lift. rewrite Codes_decode_in_bounds; [reflexivity|lia|].
  rewrite len_copy_to_user, len_make; lia.
Qed.

(** [Codes] on the one entry whose maximum is zero: the buffer is empty
    and taking the address of its first byte panics. *)
Lemma Codes_EV_PWR (os : OS) (dev : Device) (h : list event) :
  Codes os dev EV_PWR h = None.
Proof. reflexivity. Qed.

(** [Codes] on a category that is not in the table. *)
Lemma Codes_absent (os : OS) (dev : Device) (eventType : Z) (h : list event) :
  maxCodes_table !! eventType = None ->
  Codes os dev eventType h =
  Some ((None,
         Some (Errorf "Device.Codes: %w %d" ErrInvalidEventType [eventType])),
        h).
Proof. intros Ht. unfold Codes, MaxCodes. now rewrite Ht. Qed.

(** Every entry other than [EV_PWR] meets the conditions of [Codes_run]. *)
Lemma table_entries_bounds (eventType maxCode : Z) :
  maxCodes_table !! eventType = Some maxCode -> eventType <> EV_PWR ->
  0 <= eventType < 2 ^ 64 /\ 0 <= maxCode < 2 ^ 32 /\ maxCode mod 8 <> 0.
Proof.
  intros Ht Hne. apply maxCodes_table_entries in Ht.
  unfold table_entries in Ht.
  repeat (apply elem_of_cons in Ht as [Ht|Ht];
          [injection Ht as -> ->; first [now destruct Hne | vm_compute; intuition discriminate]|]).
  now apply elem_of_nil in Ht.
Qed.

(** [Codes] on a table category other than [EV_PWR] returns, having issued
    exactly one bitmask query. *)
Lemma Codes_returns (os : OS) (dev : Device) (eventType maxCode : Z)
    (h : list event) :
  maxCodes_table !! eventType = Some maxCode -> eventType <> EV_PWR ->
  exists (codes : option (list Z)) (err : option error),
    Codes os dev eventType h =
      Some ((codes, err),
            h ++ [EvIoctl (fd dev) (EVIOCGBIT eventType (bitset_len maxCode))
                          (Z.to_nat (bitset_len maxCode))]) /\
    (forall e, err = Some e -> errors_Is e ErrInvalidEventType = false).
Proof.
  intros Ht Hne.
  destruct (table_entries_bounds _ _ Ht Hne) as (He & Hm & Hmod).
  destruct (sys_ioctl os h (fd dev) (EVIOCGBIT eventType (bitset_len maxCode))
              (make (bitset_len maxCode))) as [errno data] eqn:Hk.
  rewrite (Codes_run os dev eventType maxCode h errno data Ht He Hm Hmod Hk).
  destruct (decide (errno <> 0)); do 2 eexists; (split; [reflexivity|]);
    intros e [= <-]; reflexivity.
Qed.

(** C2 (what the code does). For every category of the bound table other
    than [EV_PWR], [Codes] issues its bitmask read request with a buffer of
    exactly [ceil((max+1)/8)] bytes, 96 bytes for [EV_KEY]; for [EV_PWR],
    whose maximum is 0, the buffer [Codes] makes has [(0+7)/8 = 0] bytes
    where [ceil((0+1)/8)] is 1, and no request is issued. *)
Theorem Codes_buffer_length (os : OS) (dev : Device) (h : list event) :
  (forall eventType maxCode,
      maxCodes_table !! eventType = Some maxCode -> eventType <> EV_PWR ->
      exists r,
        Codes os dev eventType h =
          Some (r, h ++ [EvIoctl (fd dev)
                           (EVIOCGBIT eventType (bitset_len maxCode))
                           (Z.to_nat (bitset_len maxCode))])) /\
  (maxCodes_table !! EV_KEY = Some 0x2ff /\ bitset_len 0x2ff = 96) /\
  (maxCodes_table !! EV_PWR = Some 0 /\ bitset_len 0 = 1 /\
   make (Codes_buflen 0) = [] /\ Codes os dev EV_PWR h = None).
Proof.
  split; [|split; [split; reflexivity|repeat split]].
  intros eventType maxCode Ht Hne.
  destruct (Codes_returns os dev eventType maxCode h Ht Hne)
    as (codes & err & Hrun & _).
  now exists (codes, err).
Qed.

(** C5 (what the code does). [Codes] on [EV_PWR], a category of the bound
    table whose maximum is 0, panics whatever the system answers: the
    buffer it makes is empty and the address of its first byte is taken.
    On every other category of the table it returns a result or an
    error. *)
Theorem Codes_panics_on_EV_PWR (os : OS) (dev : Device) (h : list event) :
  maxCodes_table !! EV_PWR = Some 0 /\
  addr_index0 (make (Codes_buflen 0)) h = None /\
  Codes os dev EV_PWR h = None /\
  (forall eventType maxCode,
      maxCodes_table !! eventType = Some maxCode -> eventType <> EV_PWR ->
      is_Some (Codes os dev eventType h)).
Proof.
  repeat split.
  intros eventType maxCode Ht Hne.
  destruct (Codes_returns os dev eventType maxCode h Ht Hne)
    as (codes & err & -> & _).
  eexists. reflexivity.
Qed.

(** [Events] reports [EV_PWR] when the device sets its bit, so a caller
    that follows the interface passes it to [Codes]. *)
Lemma Events_may_report_EV_PWR :
  exists events h',
    Events (example.machine []) example.dev [] = Some ((Some events, None), h') /\
    EV_PWR ∈ events.
Proof.
  do 2 eexists. split; [reflexivity|].
  apply list_elem_of_In. vm_compute. tauto.
Qed.

Lemma maxCodes_table_absent (eventType : Z) :
  maxCodes_table !! eventType = None <->
  eventType ∉ [EV_SYN; EV_KEY; EV_REL; EV_ABS; EV_MSC; EV_SW; EV_LED; EV_SND;
               EV_REP; EV_FF; EV_PWR; EV_FF_STATUS].
Proof.
  change maxCodes_table with (list_to_map table_entries : gmap Z Z).
  symmetry. apply (not_elem_of_list_to_map (M := gmap Z) table_entries).
Qed.

(** C7. [Codes] fails with the invalid-event-type error exactly when the
    event type is none of the twelve categories of the bound table; it
    then returns no result and has issued no ioctl.  [EV_PWR], present
    with maximum 0, is not treated as absent. *)
Theorem Codes_invalid_event_type (os : OS) (dev : Device) (eventType : Z)
    (h : list event) :
  ((exists r e h',
       Codes os dev eventType h = Some ((r, Some e), h') /\
       errors_Is e ErrInvalidEventType = true) <->
   eventType ∉ [EV_SYN; EV_KEY; EV_REL; EV_ABS; EV_MSC; EV_SW; EV_LED; EV_SND;
                EV_REP; EV_FF; EV_PWR; EV_FF_STATUS]) /\
  ((eventType ∉ [EV_SYN; EV_KEY; EV_REL; EV_ABS; EV_MSC; EV_SW; EV_LED; EV_SND;
                 EV_REP; EV_FF; EV_PWR; EV_FF_STATUS]) ->
   Codes os dev eventType h =
     Some ((None,
            Some (Errorf "Device.Codes: %w %d" ErrInvalidEventType [eventType])),
           h)) /\
  MaxCodes EV_PWR = (0, true) /\
  MaxCodes 0x18 = (0, false).
Proof.
  rewrite <- maxCodes_table_absent.
  split; [split|split; [apply Codes_absent|split; reflexivity]].
  - intros (r & e & h' & Hrun & His).
    destruct (maxCodes_table !! eventType) as [maxCode|] eqn:Ht; [|reflexivity].
    exfalso.
    destruct (decide (eventType = EV_PWR)) as [->|Hne].
    { rewrite Codes_EV_PWR in Hrun. discriminate. }
    destruct (Codes_returns os dev eventType maxCode h Ht Hne)
      as (codes & err & Hrun' & Hnot).
    rewrite Hrun' in Hrun. injection Hrun as _ -> _.
    rewrite (Hnot e eq_refl) in His. discriminate.
  - intros Ht. do 3 eexists. split; [now apply Codes_absent|reflexivity].
Qed.

(** ** The device identity *)

Lemma byte_val_range (x : byte) : 0 <= byte_val x < 2 ^ 8.
Proof.
  unfold byte_val. pose proof (Byte.to_N_bounded x) as Hx.
  change (2 ^ 8) with 256. lia.
Qed.

(** The two-byte layout read as a number: low byte plus 256 times high
    byte. *)
Lemma uint16_le_sum (lo hi : byte) :
  uint16_le lo hi = byte_val lo + 256 * byte_val hi.
Proof.
  unfold uint16_le.
  rewrite lor_shiftl_add by (try apply byte_val_range; lia).
  change (2 ^ 8) with 256. lia.
Qed.

(** The kernel's copy of at least eight bytes fills the struct with the
    first eight. *)
Lemma copy_to_user_ID (b0 b1 b2 b3 b4 b5 b6 b7 : byte) (rest : list byte) :
  copy_to_user ID_zero_bytes ([b0; b1; b2; b3; b4; b5; b6; b7] ++ rest) =
  [b0; b1; b2; b3; b4; b5; b6; b7].
Proof.
  unfold copy_to_user. change (length ID_zero_bytes) with 8%nat.
  cbn [app length take]. rewrite firstn_O.
  change ID_zero_bytes with (replicate 8 x00).
  rewrite drop_replicate.
  replace (8 - S (S (S (S (S (S (S (S (length rest)))))))))%nat with 0%nat by lia.
  reflexivity.
Qed.

(** C8. The identity payload is four consecutive little-endian [uint16]
    fields in the order bustype, vendor, product, version: whatever eight
    bytes the kernel answers the identity query with, each field read is
    the low byte plus 256 times the high byte of its pair, and [ID]
    formats these four numbers.  In particular, for the bytes 03 00, 6d
    04, 8e c2, 11 01 the identity read is bustype 3, vendor 0x046d,
    product 0xc28e, version 0x0111 and [ID] returns "bus 0x3 vendor 0x46d
    product 0xc28e version 0x111". *)
Theorem Device_ID_decodes (os : OS) (dev : Device) (h : list event) :
  (forall (b0 b1 b2 b3 b4 b5 b6 b7 : byte) (rest : list byte),
     sys_ioctl os h (fd dev) EVIOCGID ID_zero_bytes
       = (0, [b0; b1; b2; b3; b4; b5; b6; b7] ++ rest) ->
     ID_of_bytes
       (copy_to_user ID_zero_bytes ([b0; b1; b2; b3; b4; b5; b6; b7] ++ rest))
       = Some {| Bustype := byte_val b0 + 256 * byte_val b1;
                 Vendor := byte_val b2 + 256 * byte_val b3;
                 Product := byte_val b4 + 256 * byte_val b5;
                 Version := byte_val b6 + 256 * byte_val b7 |} /\
     Device_ID os dev h =
       Some ((("bus 0x" ++ fmt_x (byte_val b0 + 256 * byte_val b1) ++
               " vendor 0x" ++ fmt_x (byte_val b2 + 256 * byte_val b3) ++
               " product 0x" ++ fmt_x (byte_val b4 + 256 * byte_val b5) ++
               " version 0x" ++ fmt_x (byte_val b6 + 256 * byte_val b7))%string,
              None),
             h ++ [EvIoctl (fd dev) EVIOCGID 8])) /\
  (sys_ioctl os h (fd dev) EVIOCGID ID_zero_bytes
     = (0, [x03; x00; x6d; x04; x8e; xc2; x11; x01]) ->
   ID_of_bytes (copy_to_user ID_zero_bytes [x03; x00; x6d; x04; x8e; xc2; x11; x01])
     = Some {| Bustype := 3; Vendor := 0x046d; Product := 0xc28e;
               Version := 0x0111 |} /\
   Device_ID os dev h =
     Some (("bus 0x3 vendor 0x46d product 0xc28e version 0x111"%string, None),
           h ++ [EvIoctl (fd dev) EVIOCGID 8])).
Proof.
  split.
  - intros b0 b1 b2 b3 b4 b5 b6 b7 rest Hk.
    unfold Device_ID, bind, Any.
    change (uint EVIOCGID) with EVIOCGID. rewrite Hk.
    destruct (decide (0 <> 0)) as [Hbad|_]; [now destruct Hbad|].
    cbv beta iota. rewrite copy_to_user_ID.
    unfold lift, ID_of_bytes, ret. cbv beta iota.
    unfold Bustype, Vendor, Product, Version.
    rewrite !uint16_le_sum. split; reflexivity.
  - intros Hk. split; [reflexivity|].
    unfold Device_ID, bind, Any.
    change (uint EVIOCGID) with EVIOCGID. rewrite Hk.
    reflexivity.
Qed.

Lemma Device_ID_decodes_witness :
  ID_of_bytes (copy_to_user ID_zero_bytes [x03; x00; x6d; x04; x8e; xc2; x11; x01])
    = Some {| Bustype := 3; Vendor := 0x046d; Product := 0xc28e;
              Version := 0x0111 |} /\
  Device_ID (example.machine []) example.dev [] =
    Some (("bus 0x3 vendor 0x46d product 0xc28e version 0x111"%string, None),
          [] ++ [EvIoctl 3 EVIOCGID 8]).
Proof.
  exact (proj2 (Device_ID_decodes (example.machine []) example.dev []) eq_refl).
Defined.

(** ** Opening devices *)

(** What [NewDevice] does, by the answer of the system. *)
Lemma NewDevice_run (os : OS) (path : string) (h : list event) :
  NewDevice os path h =
  Some (match sys_open os h (Clean os path) O_RDWR 0 with
        | OpenErr e => (None, Some (Errorf "input.NewDevice: %w" e []))
        | Opened f => (Some {| file := f; fd := Fd f |}, None)
        end,
        h ++ [EvOpen (Clean os path) O_RDWR 0]).
Proof.
  unfold NewDevice, bind, OpenFile.
  now destruct (sys_open os h (Clean os path) O_RDWR 0).
Qed.

(** C9 (amended). [NewDevice] never panics and opens the cleaned path.
    When the system reports the cleaned path as nonexistent the error
    returned is classified as not-exist by [errors.Is]; on success the
    handle holds the descriptor of a file opened with [O_RDWR]; whenever
    an error is returned, no handle is. *)
Theorem NewDevice_outcomes (os : OS) (path : string) (h : list event) :
  exists (dev : option Device) (err : option error),
    NewDevice os path h =
      Some ((dev, err), h ++ [EvOpen (Clean os path) O_RDWR 0]) /\
    (forall e, sys_open os h (Clean os path) O_RDWR 0 = OpenErr e ->
               errors_Is e ErrNotExist = true ->
               exists e', err = Some e' /\ errors_Is e' ErrNotExist = true) /\
    (forall d, dev = Some d ->
               err = None /\
               sys_open os h (Clean os path) O_RDWR 0 = Opened (file d) /\
               fd d = Fd (file d)) /\
    (forall e, err = Some e -> dev = None).
Proof.
  rewrite NewDevice_run.
  destruct (sys_open os h (Clean os path) O_RDWR 0) as [e|f];
    do 2 eexists; (split; [reflexivity|]); (split; [|split]).
  - intros e0 [= <-] His. eexists. split; [reflexivity|exact His].
  - discriminate.
  - reflexivity.
  - discriminate.
  - intros d [= <-]. repeat split.
  - discriminate.
Qed.

Lemma NewDevice_outcomes_witness :
  exists e' : error,
    NewDevice (example.machine ["/dev/input/event1"%string])
              "/dev/input/event1" []
      = Some ((None, Some e'), [EvOpen "/dev/input/event1" O_RDWR 0]) /\
    errors_Is e' ErrNotExist = true.
Proof.
  destruct (NewDevice_outcomes (example.machine ["/dev/input/event1"%string])
              "/dev/input/event1" [])
    as (dev & err & Hrun & Hmissing & _ & Hnone).
  destruct (Hmissing _ eq_refl eq_refl) as (e' & -> & His).
  rewrite (Hnone e' eq_refl) in Hrun.
  exists e'. split; [exact Hrun|exact His].
Defined.

(** C9 as stated fails on the empty path: the path itself does not exist,
    yet [NewDevice] opens ".", what [filepath.Clean] makes of it, and
    returns the error of opening a directory for writing, which
    [errors.Is] does not classify as not-exist. *)
Lemma NewDevice_empty_path_not_NotFound :
  sys_open example.empty_path [] "" O_RDWR 0 =
    OpenErr (PathError "open" "" (Errno ENOENT)) /\
  errors_Is (PathError "open" "" (Errno ENOENT)) ErrNotExist = true /\
  NewDevice example.empty_path "" [] =
    Some ((None,
           Some (Errorf "input.NewDevice: %w"
                   (PathError "open" "." (Errno example.EISDIR)) [])),
          [EvOpen "." O_RDWR 0]) /\
  errors_Is (Errorf "input.NewDevice: %w"
               (PathError "open" "." (Errno example.EISDIR)) [])
            ErrNotExist = false.
Proof. repeat split. Qed.

Section DevicesLoop.

Variable os : OS.

(** If every path opens when its turn comes, the loop appends one handle
    per path, in order. *)
Lemma Devices_loop_all (paths : list string) :
  forall (devices : list (option Device)) (h : list event),
    (forall i p, paths !! i = Some p ->
       exists f, sys_open os (h ++ opens os paths i) (Clean os p) O_RDWR 0
                 = Opened f) ->
    exists devs : list (option Device),
      Devices_loop os paths devices h =
        Some ((Some (devices ++ devs), None),
              h ++ opens os paths (length paths)) /\
      length devs = length paths /\
      forall i p, paths !! i = Some p ->
        exists f, sys_open os (h ++ opens os paths i) (Clean os p) O_RDWR 0
                  = Opened f /\
                  devs !! i = Some (Some {| file := f; fd := Fd f |}).
Proof.
  induction paths as [|path rest IH]; intros devices h Hall.
  - exists []. simpl. rewrite !app_nil_r. repeat split. intros i p [=].
  - destruct (Hall 0%nat path eq_refl) as [f Hf].
    unfold opens in Hf. simpl in Hf. rewrite app_nil_r in Hf.
    destruct (IH (devices ++ [Some {| file := f; fd := Fd f |}])
                 (h ++ [EvOpen (Clean os path) O_RDWR 0]))
      as (devs & Hrun & Hlen & Hnth).
    { intros i p Hp. destruct (Hall (S i) p Hp) as [f' Hf'].
      exists f'. unfold opens in *. simpl in Hf'.
      now rewrite <- app_assoc. }
    exists (Some {| file := f; fd := Fd f |} :: devs).
    split; [|split].
    + simpl. unfold bind. rewrite NewDevice_run, Hf. cbv beta iota.
      rewrite Hrun. unfold opens. simpl.
      now rewrite <- !app_assoc.
    + simpl. now rewrite Hlen.
    + intros [|i] p Hp.
      * injection Hp as <-. exists f. unfold opens. simpl.
        rewrite app_nil_r. now split.
      * destruct (Hnth i p Hp) as (f' & Hf' & Hd).
        exists f'. unfold opens in *. simpl.
        rewrite <- app_assoc in Hf'. now split.
Qed.

(** If some path fails to open when its turn comes, the loop returns an
    error and a nil list, whatever it had collected. *)
Lemma Devices_loop_any (paths : list string) :
  forall (devices : list (option Device)) (h : list event) (i : nat)
         (p : string) (e : error),
    paths !! i = Some p ->
    sys_open os (h ++ opens os paths i) (Clean os p) O_RDWR 0 = OpenErr e ->
    exists e' h', Devices_loop os paths devices h = Some ((None, Some e'), h').
Proof.
  induction paths as [|path rest IH]; intros devices h i p e Hp He.
  - discriminate.
  - simpl. unfold bind. rewrite NewDevice_run.
    destruct (sys_open os h (Clean os path) O_RDWR 0) as [e0|f] eqn:Hhead;
      cbv beta iota.
    + do 2 eexists. reflexivity.
    + destruct i as [|i].
      * injection Hp as <-. unfold opens in He. simpl in He.
        rewrite app_nil_r in He. congruence.
      * apply (IH _ _ i p e Hp). unfold opens in *. simpl in He.
        now rewrite <- app_assoc.
Qed.

End DevicesLoop.

(** C10. [Devices] is all-or-nothing: if opening any single matched node
    fails, the call returns an error and a nil list; if every open
    succeeds, it returns one handle per matched path, in the order the
    paths were enumerated. *)
Theorem Devices_all_or_nothing (os : OS) (h : list event) (paths : list string) :
  sys_glob os h "/dev/input/event*" = GlobOk paths ->
  let h0 := h ++ [EvGlob "/dev/input/event*"] in
  ((exists i p e,
       paths !! i = Some p /\
       sys_open os (h0 ++ opens os paths i) (Clean os p) O_RDWR 0 = OpenErr e) ->
   exists e' h', Devices os h = Some ((None, Some e'), h')) /\
  ((forall i p, paths !! i = Some p ->
       exists f, sys_open os (h0 ++ opens os paths i) (Clean os p) O_RDWR 0
                 = Opened f) ->
   exists devs : list (option Device),
     Devices os h =
       Some ((Some devs, None), h0 ++ opens os paths (length paths)) /\
     length devs = length paths /\
     forall i p, paths !! i = Some p ->
       exists f, sys_open os (h0 ++ opens os paths i) (Clean os p) O_RDWR 0
                 = Opened f /\
                 devs !! i = Some (Some {| file := f; fd := Fd f |})).
Proof.
  intros Hg h0.
  assert (Devices os h = Devices_loop os paths [] h0) as ->.
  { unfold Devices, bind, Glob. now rewrite Hg. }
  split.
  - intros (i & p & e & Hp & He). exact (Devices_loop_any os paths [] h0 i p e Hp He).
  - intros Hall. exact (Devices_loop_all os paths [] h0 Hall).
Qed.

Lemma Devices_all_or_nothing_witness :
  (exists e' h',
      Devices (example.machine ["/dev/input/event1"%string]) []
        = Some ((None, Some e'), h')) /\
  (exists devs : list (option Device),
      Devices (example.machine []) [] =
        Some ((Some devs, None),
              [EvGlob "/dev/input/event*"; EvOpen "/dev/input/event0" O_RDWR 0;
               EvOpen "/dev/input/event1" O_RDWR 0]) /\
      length devs = 2%nat).
Proof.
  split.
  - apply (Devices_all_or_nothing
             (example.machine ["/dev/input/event1"%string]) [] _ eq_refl).
    exists 1%nat. do 2 eexists. split; reflexivity.
  - destruct (proj2 (Devices_all_or_nothing (example.machine []) [] _ eq_refl))
      as (devs & Hrun & Hlen & _).
    + intros [|[|i]] p [= <-]; eexists; reflexivity.
    + exists devs. split; [exact Hrun|exact Hlen].
Defined.

(** ** More on the codec: fields out of range, builders, masks *)

Lemma testbit_uint (z j : Z) :
  0 <= j < 64 -> Z.testbit (uint z) j = Z.testbit z j.
Proof.
  intros Hj. unfold uint. change uint_bits with 64.
  apply Z.mod_pow2_bits_low. lia.
Qed.

(** Bit [j] of a request code, whatever the four arguments are. *)
Lemma IOC_bit (dir typ nr size j : Z) :
  0 <= j < 64 ->
  Z.testbit (IOC dir typ nr size) j =
  Z.testbit dir (j - 30) || Z.testbit typ (j - 8) || Z.testbit nr j
  || Z.testbit size (j - 16).
Proof.
  intros Hj. unfold IOC.
  rewrite !Z.lor_spec, !testbit_uint, !Z.shiftl_spec by lia.
  change IOC_DIRSHIFT with 30. change IOC_TYPESHIFT with 8.
  change IOC_NRSHIFT with 0. change IOC_SIZESHIFT with 16.
  now rewrite Z.sub_0_r.
Qed.

(** Shifting right by [k] and masking [w] bits reads bits [k] to [k+w-1]. *)
Lemma extract_bits (x y k w : Z) :
  0 <= k -> 0 <= w ->
  (forall i, 0 <= i < w -> Z.testbit x (i + k) = Z.testbit y i) ->
  Z.land (Z.shiftr x k) (Z.shiftl 1 w - 1) = y mod 2 ^ w.
Proof.
  intros Hk Hw Hbits. rewrite land_mask by assumption.
  apply Z.bits_inj'. intros i Hi.
  destruct (Z.lt_ge_cases i w).
  - rewrite !Z.mod_pow2_bits_low, Z.shiftr_spec by lia. apply Hbits. lia.
  - now rewrite !Z.mod_pow2_bits_high by lia.
Qed.

(** X1. [IOC] checks no bound: the bits of an argument that exceed its
    field are or-ed into the fields above it (and lost past bit 63), so the
    extractors return the argument only modulo the width, mixed with the
    overflow of the fields below. *)
Theorem IOC_overflow_spills (dir typ nr size : Z) :
  IOC_NR (IOC dir typ nr size) = nr mod 2 ^ 8 /\
  IOC_TYPE (IOC dir typ nr size) = Z.lor typ (Z.shiftr nr 8) mod 2 ^ 8 /\
  IOC_SIZE (IOC dir typ nr size) =
    Z.lor (Z.lor size (Z.shiftr typ 8)) (Z.shiftr nr 16) mod 2 ^ 14 /\
  IOC_DIR (IOC dir typ nr size) =
    Z.lor (Z.lor (Z.lor dir (Z.shiftr size 14)) (Z.shiftr typ 22))
          (Z.shiftr nr 30) mod 2 ^ 2.
Proof.
  unfold IOC_NR, IOC_TYPE, IOC_SIZE, IOC_DIR.
  unfold IOC_NRMASK, IOC_TYPEMASK, IOC_SIZEMASK, IOC_DIRMASK.
  change IOC_DIRSHIFT with 30. change IOC_TYPESHIFT with 8.
  change IOC_NRSHIFT with 0. change IOC_SIZESHIFT with 16.
  change IOC_DIRBITS with 2. change IOC_TYPEBITS with 8.
  change IOC_NRBITS with 8. change IOC_SIZEBITS with 14.
  repeat split; apply extract_bits; try lia; intros i Hi;
    rewrite IOC_bit by lia; rewrite ?Z.lor_spec, ?Z.shiftr_spec by lia.
  - low_bits. rewrite Z.add_0_r. now rewrite orb_false_r.
  - low_bits. replace (i + 8 - 8) with i by lia. now rewrite orb_false_r.
  - low_bits. replace (i + 16 - 16) with i by lia.
    replace (i + 16 - 8) with (i + 8) by lia.
    destruct (Z.testbit size i), (Z.testbit typ (i + 8)),
      (Z.testbit nr (i + 16)); reflexivity.
  - replace (i + 30 - 30) with i by lia.
    replace (i + 30 - 8) with (i + 22) by lia.
    replace (i + 30 - 16) with (i + 14) by lia.
    destruct (Z.testbit dir i), (Z.testbit typ (i + 22)),
      (Z.testbit nr (i + 30)), (Z.testbit size (i + 14)); reflexivity.
Qed.

(** On fields that fit their widths the extractors return the fields. *)
Lemma IOC_unpack (dir typ nr size : Z) :
  0 <= dir < 4 -> 0 <= typ < 256 -> 0 <= nr < 256 -> 0 <= size < 16384 ->
  IOC_NR (IOC dir typ nr size) = nr /\
  IOC_TYPE (IOC dir typ nr size) = typ /\
  IOC_SIZE (IOC dir typ nr size) = size /\
  IOC_DIR (IOC dir typ nr size) = dir.
Proof.
  intros Hd Ht Hn Hs. rewrite IOC_sum by assumption.
  unfold IOC_DIR, IOC_TYPE, IOC_NR, IOC_SIZE.
  unfold IOC_DIRMASK, IOC_TYPEMASK, IOC_NRMASK, IOC_SIZEMASK.
  rewrite !land_mask by (cbv; discriminate).
  rewrite !Z.shiftr_div_pow2 by (cbv; discriminate).
  change IOC_DIRSHIFT with 30. change IOC_TYPESHIFT with 8.
  change IOC_NRSHIFT with 0. change IOC_SIZESHIFT with 16.
  change IOC_DIRBITS with 2. change IOC_TYPEBITS with 8.
  change IOC_NRBITS with 8. change IOC_SIZEBITS with 14.
  change (2 ^ 30) with 1073741824. change (2 ^ 16) with 65536.
  change (2 ^ 14) with 16384. change (2 ^ 8) with 256.
  change (2 ^ 2) with 4. change (2 ^ 0) with 1.
  repeat split; Z.div_mod_to_equations; lia.
Qed.

(** X2. Fields that fit their widths are packed into a 32-bit word, and
    two such field tuples with the same request code are the same tuple. *)
Theorem IOC_injective (dir typ nr size dir' typ' nr' size' : Z) :
  0 <= dir < 4 -> 0 <= typ < 256 -> 0 <= nr < 256 -> 0 <= size < 16384 ->
  0 <= dir' < 4 -> 0 <= typ' < 256 -> 0 <= nr' < 256 -> 0 <= size' < 16384 ->
  0 <= IOC dir typ nr size < 2 ^ 32 /\
  (IOC dir typ nr size = IOC dir' typ' nr' size' ->
   dir = dir' /\ typ = typ' /\ nr = nr' /\ size = size').
Proof.
  intros Hd Ht Hn Hs Hd' Ht' Hn' Hs'.
  rewrite !IOC_sum by assumption.
  change (2 ^ 30) with 1073741824. change (2 ^ 16) with 65536.
  change (2 ^ 8) with 256. change (2 ^ 32) with 4294967296.
  split; [lia|]. intros Heq. repeat split; lia.
Qed.

Lemma IOC_injective_witness :
  0 <= IOC 2 0x45 0x20 4 < 2 ^ 32 /\
  (IOC 2 0x45 0x20 4 = IOC 2 0x45 0x20 4 ->
   2 = 2 /\ 0x45 = 0x45 /\ 0x20 = 0x20 /\ 4 = 4).
Proof.
  apply (IOC_injective 2 0x45 0x20 4 2 0x45 0x20 4); lia.
Defined.

Lemma IOC_TYPECHECK_small (sizeof_typ : Z) :
  0 <= sizeof_typ < 16384 -> IOC_TYPECHECK sizeof_typ = sizeof_typ.
Proof. intros Hs. unfold IOC_TYPECHECK. apply uint_small. lia. Qed.

(** X3. The builders [IO], [IOR], [IOW] and [IOWR] differ in the direction
    they encode and in nothing else: each keeps the magic and the number,
    [IO] carries size 0 and direction none, the others carry the size of
    the argument type with direction read, write and read-write. *)
Theorem builders_unpack (typ nr sizeof_argtype : Z) :
  0 <= typ < 256 -> 0 <= nr < 256 -> 0 <= sizeof_argtype < 16384 ->
  (IOC_DIR (IO typ nr) = IOC_NONE /\ IOC_SIZE (IO typ nr) = 0 /\
   IOC_TYPE (IO typ nr) = typ /\ IOC_NR (IO typ nr) = nr) /\
  (IOC_DIR (IOR typ nr sizeof_argtype) = IOC_READ /\
   IOC_SIZE (IOR typ nr sizeof_argtype) = sizeof_argtype /\
   IOC_TYPE (IOR typ nr sizeof_argtype) = typ /\
   IOC_NR (IOR typ nr sizeof_argtype) = nr) /\
  (IOC_DIR (IOW typ nr sizeof_argtype) = IOC_WRITE /\
   IOC_SIZE (IOW typ nr sizeof_argtype) = sizeof_argtype /\
   IOC_TYPE (IOW typ nr sizeof_argtype) = typ /\
   IOC_NR (IOW typ nr sizeof_argtype) = nr) /\
  (IOC_DIR (IOWR typ nr sizeof_argtype) = Z.lor IOC_READ IOC_WRITE /\
   IOC_SIZE (IOWR typ nr sizeof_argtype) = sizeof_argtype /\
   IOC_TYPE (IOWR typ nr sizeof_argtype) = typ /\
   IOC_NR (IOWR typ nr sizeof_argtype) = nr).
Proof.
  intros Ht Hn Hs. unfold IO, IOR, IOW, IOWR.
  rewrite IOC_TYPECHECK_small by assumption.
  change IOC_NONE with 0. change IOC_READ with 2. change IOC_WRITE with 1.
  change (Z.lor 2 1) with 3.
  pose proof (IOC_unpack 0 typ nr 0 ltac:(lia) Ht Hn ltac:(lia))
    as (? & ? & ? & ?).
  pose proof (IOC_unpack 2 typ nr sizeof_argtype ltac:(lia) Ht Hn Hs)
    as (? & ? & ? & ?).
  pose proof (IOC_unpack 1 typ nr sizeof_argtype ltac:(lia) Ht Hn Hs)
    as (? & ? & ? & ?).
  pose proof (IOC_unpack 3 typ nr sizeof_argtype ltac:(lia) Ht Hn Hs)
    as (? & ? & ? & ?).
  repeat split; assumption.
Qed.

Lemma builders_unpack_witness :
  IOC_DIR (IOR 0x45 0x02 8) = IOC_READ /\ IOC_SIZE (IOR 0x45 0x02 8) = 8 /\
  IOC_TYPE (IOR 0x45 0x02 8) = 0x45 /\ IOC_NR (IOR 0x45 0x02 8) = 0x02.
Proof.
  exact (proj1 (proj2 (builders_unpack 0x45 0x02 8
                         ltac:(lia) ltac:(lia) ltac:(lia)))).
Defined.

(** X4. Masking a request code in place agrees with the extractors, for
    every code: the size mask and shift recover [IOC_SIZE], the two
    direction flags together recover [IOC_DIR], and each flag tests one
    bit of the direction. *)
Theorem masks_agree_with_extractors (code : Z) :
  Z.shiftr (Z.land code IOCSIZE_MASK) IOSIZE_SHIFT = IOC_SIZE code /\
  Z.shiftr (Z.land code IOC_INOUT) IOC_DIRSHIFT = IOC_DIR code /\
  (Z.land code IOC_IN = 0 <-> Z.testbit (IOC_DIR code) 0 = false) /\
  (Z.land code IOC_OUT = 0 <-> Z.testbit (IOC_DIR code) 1 = false).
Proof.
  split; [|split; [|split]].
  - rewrite Z.shiftr_land. reflexivity.
  - rewrite Z.shiftr_land. reflexivity.
  - unfold IOC_DIR. rewrite Z.land_spec, Z.shiftr_spec by lia.
    change (Z.testbit IOC_DIRMASK 0) with true. rewrite andb_true_r.
    change (0 + IOC_DIRSHIFT) with 30. change IOC_IN with (Z.shiftl 1 30).
    rewrite <- Z.eqb_eq, land_bit_eqb by lia.
    now destruct (Z.testbit code 30).
  - unfold IOC_DIR. rewrite Z.land_spec, Z.shiftr_spec by lia.
    change (Z.testbit IOC_DIRMASK 1) with true. rewrite andb_true_r.
    change (1 + IOC_DIRSHIFT) with 31. change IOC_OUT with (Z.shiftl 1 31).
    rewrite <- Z.eqb_eq, land_bit_eqb by lia.
    now destruct (Z.testbit code 31).
Qed.

(** X5. For every category [ev] up to 0xdf and every length that fits the
    size field, [EVIOCGBIT(ev, length)] is a read request of magic 'E',
    number [0x20 + ev] and size [length]; distinct categories or lengths
    give distinct request codes. *)
Theorem EVIOCGBIT_unpack (ev length ev' length' : Z) :
  0 <= ev <= 0xdf -> 0 <= length < 16384 ->
  0 <= ev' <= 0xdf -> 0 <= length' < 16384 ->
  (IOC_DIR (EVIOCGBIT ev length) = IOC_READ /\
   IOC_TYPE (EVIOCGBIT ev length) = 0x45 /\
   IOC_NR (EVIOCGBIT ev length) = 0x20 + ev /\
   IOC_SIZE (EVIOCGBIT ev length) = length) /\
  (EVIOCGBIT ev length = EVIOCGBIT ev' length' -> ev = ev' /\ length = length').
Proof.
  intros He Hl He' Hl'. unfold EVIOCGBIT.
  rewrite !uint_small by lia. change E with 0x45. change IOC_READ with 2.
  split.
  - pose proof (IOC_unpack 2 0x45 (0x20 + ev) length
                  ltac:(lia) ltac:(lia) ltac:(lia) Hl) as (? & ? & ? & ?).
    repeat split; assumption.
  - rewrite !IOC_sum by lia.
    change (2 ^ 30) with 1073741824. change (2 ^ 16) with 65536.
    change (2 ^ 8) with 256. lia.
Qed.

Lemma EVIOCGBIT_unpack_witness :
  (IOC_DIR (EVIOCGBIT 1 96) = IOC_READ /\
   IOC_TYPE (EVIOCGBIT 1 96) = 0x45 /\
   IOC_NR (EVIOCGBIT 1 96) = 0x20 + 1 /\
   IOC_SIZE (EVIOCGBIT 1 96) = 96) /\
  (EVIOCGBIT 1 96 = EVIOCGBIT 3 8 -> 1 = 3 /\ 96 = 8).
Proof.
  apply (EVIOCGBIT_unpack 1 96 3 8); lia.
Defined.

(** ** More on the device queries *)

(** X6. [TestBit] panics exactly when the byte of the bit lies outside the
    buffer; inside, it answers the bit at position [pos%8] of byte
    [pos/8]. *)
Theorem TestBit_bounds (b : list byte) (pos : Z) :
  0 <= pos ->
  (TestBit b pos = None <-> len b <= pos / 8) /\
  (pos / 8 < len b -> TestBit b pos = Some (bit_set b pos)).
Proof.
  intros Hp. assert (0 <= pos / 8) by (apply Z.div_pos; lia).
  split; [|now apply TestBit_bit_set].
  split.
  - intros Hnone. destruct (Z.lt_ge_cases (pos / 8) (len b)) as [Hlt|]; [|lia].
    rewrite TestBit_bit_set in Hnone by assumption. discriminate.
  - intros Hge. apply TestBit_panics. unfold len in Hge. lia.
Qed.

Lemma TestBit_bounds_witness :
  (TestBit [x01; x80] 16 = None <-> len [x01; x80] <= 16 / 8) /\
  (16 / 8 < len [x01; x80] -> TestBit [x01; x80] 16 = Some (bit_set [x01; x80] 16)).
Proof. apply (TestBit_bounds [x01; x80] 16). lia. Defined.

Lemma StronglySorted_seqZ (m n : Z) : StronglySorted Z.lt (seqZ m n).
Proof.
  destruct (Z.le_gt_cases n 0) as [Hn|Hn].
  { rewrite seqZ_nil by assumption. constructor. }
  rewrite <- (Z2Nat.id n) by lia.
  induction (Z.to_nat n) as [|k IH]; [constructor|].
  rewrite seqZ_S. apply StronglySorted_app. split; [|split].
  - intros x1 x2 H1 H2. apply elem_of_seqZ in H1.
    apply list_elem_of_singleton in H2. lia.
  - exact IH.
  - repeat constructor.
Qed.

Lemma StronglySorted_filter (P : Z -> bool) (l : list Z) :
  StronglySorted Z.lt l -> StronglySorted Z.lt (List.filter P l).
Proof.
  induction 1 as [|a l Hl IH Ha]; simpl; [constructor|].
  destruct (P a); [|exact IH].
  constructor; [exact IH|].
  apply Forall_forall. intros x Hx.
  apply list_elem_of_In, filter_In in Hx as [Hx _].
  rewrite Forall_forall in Ha. apply Ha. now apply list_elem_of_In.
Qed.

(** What [Events] does, by the answer of the kernel. *)
Lemma Events_run (os : OS) (dev : Device) (h : list event) (errno : Z)
    (data : list byte) :
  sys_ioctl os h (fd dev) (EVIOCGBIT 0 4) (make 4) = (errno, data) ->
  Events os dev h =
  Some (if decide (errno <> 0)
        then (None, Some (Errorf "Device.Events: %w" (Errno errno) []))
        else (Some (List.filter
                      (fun c => bit_set (copy_to_user (make 4) data) c
                                && negb (c =? EV_REP))
                      (seqZ 0 EV_CNT)), None),
        h ++ [EvIoctl (fd dev) (EVIOCGBIT 0 4) 4]).
Proof.
  intros Hk. unfold Events, bind.
  change (make ((EV_MAX + 7) / 8)) with (make 4).
  change (addr_index0 (make 4) h) with (Some (make 4, h)). cbv beta iota.
  change (uint (len (make 4))) with 4.
  unfold Any. rewrite uint_EVIOCGBIT, Hk.
  destruct (decide (errno <> 0)); cbv beta iota; [reflexivity|].
  unfold lift. rewrite Events_loop_filter; [reflexivity|].
  intros c Hc. apply elem_of_seqZ in Hc. change EV_CNT with 32 in Hc.
  rewrite len_copy_to_user, len_make by lia.
  split; [lia|]. Z.div_mod_to_equations. lia.
Qed.

(** X7. [Events] never panics and issues exactly one request, the
    category query with a four-byte buffer; a list it returns is strictly
    increasing and lies in [0, EV_MAX], so it has no duplicate and at most
    32 entries. *)
Theorem Events_sorted (os : OS) (dev : Device) (h : list event) :
  exists (events : option (list Z)) (err : option error),
    Events os dev h =
      Some ((events, err), h ++ [EvIoctl (fd dev) (EVIOCGBIT 0 4) 4]) /\
    forall l, events = Some l ->
      err = None /\ StronglySorted Z.lt l /\
      Forall (fun c => 0 <= c <= EV_MAX) l /\ (length l <= 32)%nat.
Proof.
  destruct (sys_ioctl os h (fd dev) (EVIOCGBIT 0 4) (make 4))
    as [errno data] eqn:Hk.
  rewrite (Events_run os dev h errno data Hk).
  destruct (decide (errno <> 0)); do 2 eexists; (split; [reflexivity|]);
    intros l Hl; [discriminate|].
  apply Some_inj in Hl. rewrite <- Hl.
  split; [reflexivity|]. split; [|split].
  - apply StronglySorted_filter, StronglySorted_seqZ.
  - apply Forall_forall. intros c Hc.
    apply list_elem_of_In, filter_In in Hc as [Hc _].
    apply list_elem_of_In, elem_of_seqZ in Hc.
    change EV_CNT with 32 in Hc. change EV_MAX with 31. lia.
  - etransitivity; [apply filter_length_le|].
    rewrite length_seqZ. change EV_CNT with 32. lia.
Qed.

(** X8. On a category of the bound table other than [EV_PWR], when the
    kernel answers the bitmask query without error, [Codes] returns exactly
    the codes from 0 to the table maximum whose bit is set in the buffer,
    in increasing order. *)
Theorem Codes_decodes (os : OS) (dev : Device) (eventType maxCode : Z)
    (h : list event) (data : list byte) :
  maxCodes_table !! eventType = Some maxCode -> eventType <> EV_PWR ->
  sys_ioctl os h (fd dev) (EVIOCGBIT eventType (bitset_len maxCode))
            (make (bitset_len maxCode)) = (0, data) ->
  exists codes : list Z,
    Codes os dev eventType h =
      Some ((Some codes, None),
            h ++ [EvIoctl (fd dev) (EVIOCGBIT eventType (bitset_len maxCode))
                          (Z.to_nat (bitset_len maxCode))]) /\
    (forall c, c ∈ codes <->
               0 <= c <= maxCode /\
               bit_set (copy_to_user (make (bitset_len maxCode)) data) c = true) /\
    StronglySorted Z.lt codes.
Proof.
  intros Ht Hne Hk.
  destruct (table_entries_bounds _ _ Ht Hne) as (He & Hm & Hmod).
  rewrite (Codes_run os dev eventType maxCode h 0 data Ht He Hm Hmod Hk).
  destruct (decide (0 <> 0)) as [Hbad|_]; [now destruct Hbad|].
  eexists. split; [reflexivity|]. split.
  - intros c. rewrite list_elem_of_In, filter_In, <- list_elem_of_In.
    rewrite elem_of_seqZ. intuition lia.
  - apply StronglySorted_filter, StronglySorted_seqZ.
Qed.

Lemma Codes_decodes_witness :
  exists codes : list Z,
    Codes (example.machine []) example.dev EV_REL [] =
      Some ((Some codes, None),
            [] ++ [EvIoctl 3 (EVIOCGBIT EV_REL (bitset_len REL_MAX))
                           (Z.to_nat (bitset_len REL_MAX))]) /\
    (forall c, c ∈ codes <->
               0 <= c <= REL_MAX /\
               bit_set (copy_to_user (make (bitset_len REL_MAX))
                                     (replicate 2 xff)) c = true) /\
    StronglySorted Z.lt codes.
Proof.
  apply (Codes_decodes (example.machine []) example.dev EV_REL REL_MAX []
           (replicate 2 xff)); [reflexivity|discriminate|reflexivity].
Defined.

Lemma ByteSliceToString_zeros (s : list byte) (k : nat) :
  ByteSliceToString (s ++ replicate k x00) = ByteSliceToString s.
Proof.
  induction s as [|b s IH]; simpl.
  - now destruct k.
  - destruct (Byte.eqb b x00); [reflexivity|now rewrite IH].
Qed.

(** What [Name] does, by the answer of the kernel. *)
Lemma Name_run (os : OS) (dev : Device) (h : list event) (errno : Z)
    (data : list byte) :
  sys_ioctl os h (fd dev) (EVIOCGNAME 256) (make 256) = (errno, data) ->
  Name os dev h =
  Some (if decide (errno <> 0)
        then ([], Some (Errorf "Device.Name: %w" (Errno errno) []))
        else (ByteSliceToString (take 256 data), None),
        h ++ [EvIoctl (fd dev) (EVIOCGNAME 256) 256]).
Proof.
  intros Hk. unfold Name, bind.
  change (addr_index0 (make 256) h) with (Some (make 256, h)). cbv beta iota.
  unfold Any. unfold EVIOCGNAME at 1 2. rewrite uint_IOC.
  fold (EVIOCGNAME 256). rewrite Hk, length_make.
  change (Z.to_nat 256) with 256%nat.
  destruct (decide (errno <> 0)); cbv beta iota; [reflexivity|].
  unfold ret, copy_to_user. rewrite length_make.
  change (Z.to_nat 256) with 256%nat.
  unfold make. rewrite drop_replicate, ByteSliceToString_zeros. reflexivity.
Qed.

Lemma ByteSliceToString_prefix (s : list byte) :
  ByteSliceToString s `prefix_of` s /\ x00 ∉ ByteSliceToString s.
Proof.
  induction s as [|b s [IHp IHn]]; simpl.
  - split; [reflexivity|apply not_elem_of_nil].
  - destruct (Byte.eqb b x00) eqn:Hb.
    + split; [apply prefix_nil|apply not_elem_of_nil].
    + split; [now apply prefix_cons|].
      apply not_elem_of_cons. split; [|exact IHn].
      intros <-. discriminate.
Qed.

(** The bytes kept end at the first NUL or at the end of the slice. *)
Lemma ByteSliceToString_split (s : list byte) :
  s = ByteSliceToString s \/
  exists tail, s = ByteSliceToString s ++ x00 :: tail.
Proof.
  induction s as [|b s IH]; simpl; [now left|].
  destruct (Byte.eqb b x00) eqn:Hb.
  - right. exists s. apply Byte.byte_dec_bl in Hb. now subst b.
  - destruct IH as [IH|[tail IH]].
    + left. now rewrite <- IH.
    + right. exists tail. simpl. now rewrite <- IH.
Qed.

(** X9. When the kernel answers the name query without error, [Name]
    returns the bytes it copied up to the first NUL: the name holds no NUL
    byte, and the first 256 bytes of the answer are either the name itself
    or the name followed by a NUL byte and a remainder.  So the name is a
    prefix of the answer of at most 256 bytes. *)
Theorem Name_until_NUL (os : OS) (dev : Device) (h : list event)
    (data : list byte) :
  sys_ioctl os h (fd dev) (EVIOCGNAME 256) (make 256) = (0, data) ->
  exists name : list byte,
    Name os dev h =
      Some ((name, None), h ++ [EvIoctl (fd dev) (EVIOCGNAME 256) 256]) /\
    (x00 ∉ name) /\
    (take 256 data = name \/
     exists tail, take 256 data = name ++ x00 :: tail) /\
    name `prefix_of` data /\ (length name <= 256)%nat.
Proof.
  intros Hk. rewrite (Name_run os dev h 0 data Hk).
  destruct (decide (0 <> 0)) as [Hbad|_]; [now destruct Hbad|].
  eexists. split; [reflexivity|].
  destruct (ByteSliceToString_prefix (take 256 data)) as [Hp Hn].
  split; [exact Hn|]. split; [apply ByteSliceToString_split|]. split.
  - etransitivity; [exact Hp|]. apply prefix_take.
  - apply prefix_length in Hp. rewrite length_take in Hp. lia.
Qed.

Lemma Name_until_NUL_witness :
  exists name : list byte,
    Name (example.machine []) example.dev [] =
      Some ((name, None), [] ++ [EvIoctl 3 (EVIOCGNAME 256) 256]) /\
    (x00 ∉ name) /\
    (take 256 (replicate 256 xff) = name \/
     exists tail, take 256 (replicate 256 xff) = name ++ x00 :: tail) /\
    name `prefix_of` replicate 256 xff /\ (length name <= 256)%nat.
Proof.
  exact (Name_until_NUL (example.machine []) example.dev []
           (replicate 256 xff) eq_refl).
Defined.

(** What [ID] does when the kernel reports an error. *)
Lemma Device_ID_fails (os : OS) (dev : Device) (h : list event) (errno : Z)
    (data : list byte) :
  errno <> 0 ->
  sys_ioctl os h (fd dev) EVIOCGID ID_zero_bytes = (errno, data) ->
  Device_ID os dev h =
  Some ((""%string, Some (Errorf "Device.ID: %w" (Errno errno) [])),
        h ++ [EvIoctl (fd dev) EVIOCGID 8]).
Proof.
  intros Hne Hk. unfold Device_ID, bind, Any.
  change (uint EVIOCGID) with EVIOCGID. rewrite Hk.
  destruct (decide (errno <> 0)); [reflexivity|contradiction].
Qed.

(** X10. No query swallows a failure of its ioctl: when the kernel answers
    with a non-zero error number, [Name], [ID], [Events] and [Codes] (on a
    table category other than [EV_PWR]) return their zero value and an
    error that [errors.Is] matches with that error number, after that one
    request. *)
Theorem query_errors_surface (os : OS) (dev : Device) (h : list event)
    (errno : Z) (data : list byte) :
  errno <> 0 ->
  (sys_ioctl os h (fd dev) (EVIOCGNAME 256) (make 256) = (errno, data) ->
   exists e, Name os dev h =
               Some (([], Some e), h ++ [EvIoctl (fd dev) (EVIOCGNAME 256) 256]) /\
             errors_Is e (Errno errno) = true) /\
  (sys_ioctl os h (fd dev) EVIOCGID ID_zero_bytes = (errno, data) ->
   exists e, Device_ID os dev h =
               Some ((""%string, Some e), h ++ [EvIoctl (fd dev) EVIOCGID 8]) /\
             errors_Is e (Errno errno) = true) /\
  (sys_ioctl os h (fd dev) (EVIOCGBIT 0 4) (make 4) = (errno, data) ->
   exists e, Events os dev h =
               Some ((None, Some e), h ++ [EvIoctl (fd dev) (EVIOCGBIT 0 4) 4]) /\
             errors_Is e (Errno errno) = true) /\
  (forall eventType maxCode,
     maxCodes_table !! eventType = Some maxCode -> eventType <> EV_PWR ->
     sys_ioctl os h (fd dev) (EVIOCGBIT eventType (bitset_len maxCode))
               (make (bitset_len maxCode)) = (errno, data) ->
     exists e, Codes os dev eventType h =
                 Some ((None, Some e),
                       h ++ [EvIoctl (fd dev)
                               (EVIOCGBIT eventType (bitset_len maxCode))
                               (Z.to_nat (bitset_len maxCode))]) /\
               errors_Is e (Errno errno) = true).
Proof.
  intros Hne.
  assert (forall f args, errors_Is (Errorf f (Errno errno) args) (Errno errno) = true)
    as His by (intros; simpl; apply Z.eqb_refl).
  split; [|split; [|split]].
  - intros Hk. rewrite (Name_run os dev h errno data Hk).
    destruct (decide (errno <> 0)); [|contradiction].
    eexists. split; [reflexivity|apply His].
  - intros Hk. rewrite (Device_ID_fails os dev h errno data Hne Hk).
    eexists. split; [reflexivity|apply His].
  - intros Hk. rewrite (Events_run os dev h errno data Hk).
    destruct (decide (errno <> 0)); [|contradiction].
    eexists. split; [reflexivity|apply His].
  - intros eventType maxCode Ht Hpwr Hk.
    destruct (table_entries_bounds _ _ Ht Hpwr) as (He & Hm & Hmod).
    rewrite (Codes_run os dev eventType maxCode h errno data Ht He Hm Hmod Hk).
    destruct (decide (errno <> 0)); [|contradiction].
    eexists. split; [reflexivity|apply His].
Qed.

Lemma query_errors_surface_witness :
  exists e, Events example.unplugged example.dev [] =
              Some ((None, Some e), [] ++ [EvIoctl 3 (EVIOCGBIT 0 4) 4]) /\
            errors_Is e (Errno example.ENODEV) = true.
Proof.
  refine (proj1 (proj2 (proj2 (query_errors_surface example.unplugged
                                 example.dev [] example.ENODEV [] _))) eq_refl).
  discriminate.
Defined.

(** X11. [Events] reports categories [Codes] does not accept: when the
    kernel sets the bit of a category in [0, EV_MAX] that is none of the
    twelve of the bound table, [Events] lists it and [Codes] on it fails
    with the invalid-event-type error, without a request. *)
Theorem Events_reports_unknown_category (os : OS) (dev : Device)
    (h : list event) (data : list byte) (c : Z) :
  sys_ioctl os h (fd dev) (EVIOCGBIT 0 4) (make 4) = (0, data) ->
  0 <= c <= EV_MAX ->
  bit_set (copy_to_user (make 4) data) c = true ->
  c ∉ [EV_SYN; EV_KEY; EV_REL; EV_ABS; EV_MSC; EV_SW; EV_LED; EV_SND;
       EV_REP; EV_FF; EV_PWR; EV_FF_STATUS] ->
  exists (events : list Z) (h1 : list event) (e : error),
    Events os dev h = Some ((Some events, None), h1) /\
    c ∈ events /\
    Codes os dev c h1 = Some ((None, Some e), h1) /\
    errors_Is e ErrInvalidEventType = true.
Proof.
  intros Hk Hc Hbit Habs.
  rewrite (Events_run os dev h 0 data Hk).
  destruct (decide (0 <> 0)) as [Hbad|_]; [now destruct Hbad|].
  do 3 eexists. split; [reflexivity|]. split; [|split].
  - apply list_elem_of_In, filter_In. split.
    + apply list_elem_of_In, elem_of_seqZ.
      change EV_CNT with 32. change EV_MAX with 31 in Hc. lia.
    + rewrite Hbit. simpl. apply negb_true_iff, Z.eqb_neq.
      intros Heq. apply Habs. rewrite Heq.
      apply list_elem_of_In. simpl. tauto.
  - apply Codes_absent. now apply maxCodes_table_absent.
  - reflexivity.
Qed.

Lemma Events_reports_unknown_category_witness :
  exists (events : list Z) (h1 : list event) (e : error),
    Events (example.machine []) example.dev [] = Some ((Some events, None), h1) /\
    6 ∈ events /\
    Codes (example.machine []) example.dev 6 h1 = Some ((None, Some e), h1) /\
    errors_Is e ErrInvalidEventType = true.
Proof.
  apply (Events_reports_unknown_category (example.machine []) example.dev []
           (replicate 4 xff) 6 eq_refl); [vm_compute; intuition discriminate|reflexivity|].
  apply maxCodes_table_absent. reflexivity.
Defined.

(** ** The identity string *)

Lemma of_pos_nospace :
  forall (p : positive) (rest : string),
    nospace rest = true -> nospace (HexString.Raw.of_pos p rest) = true.
Proof.
  fix IH 1. intros p rest Hrest.
  do 4 try destruct p as [p|p|]; cbn; rewrite ?Hrest; try reflexivity;
    apply IH; cbn; rewrite Hrest; reflexivity.
Qed.

Lemma fmt_x_nospace (n : Z) : nospace (fmt_x n) = true.
Proof. destruct n; try reflexivity. now apply of_pos_nospace. Qed.

(** [%x] prints distinct numbers differently. *)
Lemma fmt_x_inj (n n' : Z) : 0 <= n -> 0 <= n' -> fmt_x n = fmt_x n' -> n = n'.
Proof.
  assert (forall m, 0 <= m -> HexString.Raw.to_N (fmt_x m) 0%N = Z.to_N m) as Hval.
  { intros [|p|p] Hm; [reflexivity| |lia].
    exact (HexString.Raw.to_N_of_pos p "" 0%N). }
  intros Hn Hn' Heq. apply Z2N.inj; trivial.
  now rewrite <- !Hval, Heq by assumption.
Qed.

(** Two space-free words followed by a space are equal when the texts
    are. *)
Lemma append_space_inj (a a' r r' : string) :
  nospace a = true -> nospace a' = true ->
  (a ++ String Ascii.Space r)%string = (a' ++ String Ascii.Space r')%string ->
  a = a' /\ r = r'.
Proof.
  revert a'. induction a as [|c a IH]; intros [|c' a'] Ha Ha' Heq;
    cbn in Ha, Ha', Heq.
  - injection Heq as ->. now split.
  - injection Heq as <- _. discriminate.
  - injection Heq as -> _. discriminate.
  - injection Heq as -> Heq.
    apply andb_true_iff in Ha as [_ Ha]. apply andb_true_iff in Ha' as [_ Ha'].
    destruct (IH a' Ha Ha' Heq) as [-> ->]. now split.
Qed.

Lemma String_tail_inj (c : Ascii.ascii) (s s' : string) :
  String c s = String c s' -> s = s'.
Proof. now intros [= ->]. Qed.

(** The text [ID] formats determines the four numbers. *)
Lemma ID_text_inj (b v p r b' v' p' r' : Z) :
  0 <= b -> 0 <= v -> 0 <= p -> 0 <= r ->
  0 <= b' -> 0 <= v' -> 0 <= p' -> 0 <= r' ->
  ("bus 0x" ++ fmt_x b ++ " vendor 0x" ++ fmt_x v ++
   " product 0x" ++ fmt_x p ++ " version 0x" ++ fmt_x r)%string =
  ("bus 0x" ++ fmt_x b' ++ " vendor 0x" ++ fmt_x v' ++
   " product 0x" ++ fmt_x p' ++ " version 0x" ++ fmt_x r')%string ->
  b = b' /\ v = v' /\ p = p' /\ r = r'.
Proof.
  intros Hb Hv Hp Hr Hb' Hv' Hp' Hr' Heq.
  cbn [String.append] in Heq.
  repeat apply String_tail_inj in Heq.
  apply append_space_inj in Heq as [Eb Heq]; try apply fmt_x_nospace.
  repeat apply String_tail_inj in Heq.
  apply append_space_inj in Heq as [Ev Heq]; try apply fmt_x_nospace.
  repeat apply String_tail_inj in Heq.
  apply append_space_inj in Heq as [Ep Heq]; try apply fmt_x_nospace.
  repeat apply String_tail_inj in Heq.
  repeat split; now apply fmt_x_inj.
Qed.

Lemma byte_val_nonneg (x : byte) : 0 <= byte_val x.
Proof. unfold byte_val. lia. Qed.

Lemma uint16_le_nonneg (lo hi : byte) : 0 <= uint16_le lo hi.
Proof.
  unfold uint16_le. apply Z.lor_nonneg. split; [apply byte_val_nonneg|].
  apply Z.shiftl_nonneg, byte_val_nonneg.
Qed.

(** What [ID] does when the kernel reports no error: the eight bytes of
    the struct always decode. *)
Lemma Device_ID_succeeds (os : OS) (dev : Device) (h : list event)
    (data : list byte) :
  sys_ioctl os h (fd dev) EVIOCGID ID_zero_bytes = (0, data) ->
  exists id : ID,
    ID_of_bytes (copy_to_user ID_zero_bytes data) = Some id /\
    (0 <= Bustype id /\ 0 <= Vendor id /\ 0 <= Product id /\ 0 <= Version id) /\
    Device_ID os dev h =
      Some ((("bus 0x" ++ fmt_x (Bustype id) ++
              " vendor 0x" ++ fmt_x (Vendor id) ++
              " product 0x" ++ fmt_x (Product id) ++
              " version 0x" ++ fmt_x (Version id))%string, None),
            h ++ [EvIoctl (fd dev) EVIOCGID 8]).
Proof.
  intros Hk. unfold Device_ID, bind, Any.
  change (uint EVIOCGID) with EVIOCGID. rewrite Hk.
  destruct (decide (0 <> 0)) as [Hbad|_]; [now destruct Hbad|].
  cbv beta iota.
  pose proof (len_copy_to_user ID_zero_bytes data) as Hlen.
  change (len ID_zero_bytes) with 8 in Hlen. unfold len in Hlen.
  destruct (copy_to_user ID_zero_bytes data)
    as [|b0 [|b1 [|b2 [|b3 [|b4 [|b5 [|b6 [|b7 [|b8 rest]]]]]]]]];
    simpl in Hlen; try lia.
  eexists. split; [reflexivity|]. split; [|reflexivity].
  simpl. repeat split; apply uint16_le_nonneg.
Qed.

(** X12. The string [ID] returns identifies the device: two successful
    identity queries return the same string exactly when the kernel stored
    the same four fields. *)
Theorem Device_ID_determines_identity (os os' : OS) (dev dev' : Device)
    (h h' : list event) (data data' : list byte) :
  sys_ioctl os h (fd dev) EVIOCGID ID_zero_bytes = (0, data) ->
  sys_ioctl os' h' (fd dev') EVIOCGID ID_zero_bytes = (0, data') ->
  exists (id id' : ID) (s s' : string),
    ID_of_bytes (copy_to_user ID_zero_bytes data) = Some id /\
    ID_of_bytes (copy_to_user ID_zero_bytes data') = Some id' /\
    Device_ID os dev h = Some ((s, None), h ++ [EvIoctl (fd dev) EVIOCGID 8]) /\
    Device_ID os' dev' h' =
      Some ((s', None), h' ++ [EvIoctl (fd dev') EVIOCGID 8]) /\
    (s = s' <-> id = id').
Proof.
  intros Hk Hk'.
  destruct (Device_ID_succeeds os dev h data Hk)
    as (id & Hid & (Hb & Hv & Hp & Hr) & Hrun).
  destruct (Device_ID_succeeds os' dev' h' data' Hk')
    as (id' & Hid' & (Hb' & Hv' & Hp' & Hr') & Hrun').
  exists id, id'. do 2 eexists.
  split; [exact Hid|]. split; [exact Hid'|].
  split; [exact Hrun|]. split; [exact Hrun'|].
  split.
  - intros Heq. apply ID_text_inj in Heq as (Eb & Ev & Ep & Er); trivial.
    destruct id, id'. simpl in *. congruence.
  - now intros ->.
Qed.

Lemma Device_ID_determines_identity_witness :
  exists (id id' : ID) (s s' : string),
    ID_of_bytes (copy_to_user ID_zero_bytes example.identity_payload) = Some id /\
    ID_of_bytes (copy_to_user ID_zero_bytes example.identity_payload) = Some id' /\
    Device_ID (example.machine []) example.dev [] =
      Some ((s, None), [] ++ [EvIoctl 3 EVIOCGID 8]) /\
    Device_ID (example.machine []) example.dev [] =
      Some ((s', None), [] ++ [EvIoctl 3 EVIOCGID 8]) /\
    (s = s' <-> id = id').
Proof.
  exact (Device_ID_determines_identity (example.machine []) (example.machine [])
           example.dev example.dev [] [] _ _ eq_refl eq_refl).
Defined.

(** ** Discovery stops at the first failure *)

Lemma Devices_loop_first_failure (os : OS) (paths : list string) :
  forall (devices : list (option Device)) (h : list event) (i : nat)
         (p : string) (e : error),
    paths !! i = Some p ->
    (forall j q, (j < i)%nat -> paths !! j = Some q ->
       exists f, sys_open os (h ++ opens os paths j) (Clean os q) O_RDWR 0
                 = Opened f) ->
    sys_open os (h ++ opens os paths i) (Clean os p) O_RDWR 0 = OpenErr e ->
    Devices_loop os paths devices h =
    Some ((None,
           Some (Errorf "input.Devices: %w"
                   (Errorf "input.NewDevice: %w" e []) [])),
          h ++ opens os paths (S i)).
Proof.
  induction paths as [|path rest IH]; intros devices h i p e Hp Hbefore He.
  - discriminate.
  - simpl. unfold bind. rewrite NewDevice_run. destruct i as [|i].
    + injection Hp as <-. unfold opens in He. simpl in He.
      rewrite app_nil_r in He. rewrite He. reflexivity.
    + destruct (Hbefore 0%nat path ltac:(lia) eq_refl) as [f Hf].
      unfold opens in Hf. simpl in Hf. rewrite app_nil_r in Hf.
      rewrite Hf. cbv beta iota.
      rewrite (IH _ _ i p e Hp).
      * unfold opens. simpl. now rewrite <- app_assoc.
      * intros j q Hj Hq.
        destruct (Hbefore (S j) q ltac:(lia) Hq) as [f' Hf'].
        exists f'. unfold opens in *. simpl in Hf'. now rewrite <- app_assoc.
      * unfold opens in *. simpl in He. now rewrite <- app_assoc.
Qed.

(** X13. [Devices] stops at the first node that fails to open: the nodes
    after it are never opened, and the error returned wraps the error of
    that open (under the names of [NewDevice] and [Devices]). *)
Theorem Devices_stops_at_first_failure (os : OS) (h : list event)
    (paths : list string) (i : nat) (p : string) (e : error) :
  sys_glob os h "/dev/input/event*" = GlobOk paths ->
  let h0 := h ++ [EvGlob "/dev/input/event*"] in
  paths !! i = Some p ->
  (forall j q, (j < i)%nat -> paths !! j = Some q ->
     exists f, sys_open os (h0 ++ opens os paths j) (Clean os q) O_RDWR 0
               = Opened f) ->
  sys_open os (h0 ++ opens os paths i) (Clean os p) O_RDWR 0 = OpenErr e ->
  Devices os h =
  Some ((None,
         Some (Errorf "input.Devices: %w" (Errorf "input.NewDevice: %w" e []) [])),
        h0 ++ opens os paths (S i)).
Proof.
  intros Hg h0 Hp Hbefore He.
  unfold Devices, bind, Glob. rewrite Hg.
  now apply (Devices_loop_first_failure os paths [] h0 i p e).
Qed.

Lemma Devices_stops_at_first_failure_witness :
  Devices (example.machine ["/dev/input/event0"%string]) [] =
  Some ((None,
         Some (Errorf "input.Devices: %w"
                 (Errorf "input.NewDevice: %w"
                    (PathError "open" "/dev/input/event0" (Errno ENOENT)) []) [])),
        [EvGlob "/dev/input/event*"; EvOpen "/dev/input/event0" O_RDWR 0]).
Proof.
  apply (Devices_stops_at_first_failure
           (example.machine ["/dev/input/event0"%string]) [] _ 0
           "/dev/input/event0" _ eq_refl eq_refl).
  - intros j q Hj. lia.
  - reflexivity.
Defined.

(** ** The base directories of package xdg *)

Import xdg.

(** X15. A base directory comes from its environment variable exactly when
    that value starts with a slash: an unset, empty or relative value is
    ignored in favour of the joined default.  The home directory used in
    the defaults is never empty: it is "/" when [HOME] is unset or
    empty. *)
Theorem xdg_base_directory (environ : gmap string string)
    (Join : list string -> string) (env : string) (subPaths : list string) :
  (IsAbs (Getenv environ env) = true ->
   xdg environ Join env subPaths = Getenv environ env) /\
  (IsAbs (Getenv environ env) = false ->
   xdg environ Join env subPaths = Join subPaths) /\
  (environ !! env = None -> xdg environ Join env subPaths = Join subPaths) /\
  home environ <> ""%string /\
  (environ !! "HOME"%string = None \/ environ !! "HOME"%string = Some ""%string ->
   home environ = "/"%string) /\
  (forall v, environ !! "HOME"%string = Some v -> v <> ""%string ->
             home environ = v).
Proof.
  unfold xdg, home, Getenv, IsAbs.
  split; [|split; [|split; [|split; [|split]]]].
  - destruct (default ""%string (environ !! env)) as [|c v]; [discriminate|].
    now intros ->.
  - destruct (default ""%string (environ !! env)) as [|c v]; [reflexivity|].
    now intros ->.
  - now intros ->.
  - destruct (environ !! "HOME"%string) as [[|c v]|]; simpl; discriminate.
  - now intros [-> | ->].
  - intros v -> Hv. simpl. destruct v; [contradiction|reflexivity].
Qed.
